(** * Mind-map reconstruction and block layout

    A shallow embedding of the two algorithmic cores of the paper-reading
    application:

    - the block layout engine of the [MindMapGraph] component, in its two
      versions: the top-down one ([calculateSubtreeSize], footprints are
      widths) and the left-to-right one ([calculateSubtreeHeight],
      footprints are heights), each followed by its [assignPositions];
    - the tree reconstruction [buildTreeFromFlatList] of the Gemini
      service, in its two versions: the one that adopts the first
      parentless record as root, and the one that always creates a
      synthetic root.

    Around these cores it also embeds the text extraction
    [extractTextFromPDF] of the PDF service (both versions), the service
    call [generateMindMap] that wraps the reconstruction (both versions)
    and the [OutlineView] component (both versions).

    The definitions come first (the code, then the reference definitions
    the statements need), the proofs after them.

    Numbers.  Every number the layout code manipulates is an integer, or
    the half of an even integer; they are modelled in [Z], and [x / 2] is
    [Z.div].  It is only applied to footprints, to their differences and to
    the fixed box size, and the metric pass only produces even footprints
    (lemmas [td_footprint_even] and [lr_footprint_even]), so no division of
    a layout is inexact.  A number that JavaScript would compute from an
    unset ([undefined]) field is [NaN]; the type [num] keeps that case as
    [None]. *)

From Stdlib Require Import String Ascii DecimalString.
From Stdlib Require Import ZArith List Lia Bool Permutation Relations.
Import ListNotations.

Set Warnings "-register-all".

Open Scope string_scope.
Open Scope list_scope.
Open Scope Z_scope.

(** ** JavaScript numbers that may be NaN *)

Abbreviation num := (option Z).

Definition nlift2 (f : Z -> Z -> Z) (a b : num) : num :=
  match a, b with
  | Some x, Some y => Some (f x y)
  | _, _ => None
  end.

Definition nadd : num -> num -> num := nlift2 Z.add.
Definition nsub : num -> num -> num := nlift2 Z.sub.
Definition nhalf (a : num) : num := option_map (fun x => x / 2) a.

Declare Scope num_scope.
Delimit Scope num_scope with num.
Infix "+" := nadd : num_scope.
Infix "-" := nsub : num_scope.

(** [v || 0] on a number field: [undefined], [NaN] and [0] all give [0]. *)
Definition orZero (a : num) : Z :=
  match a with Some x => x | None => 0 end.

(** ** The tree handed to the layout ([MindMapNode] of [types.ts])

    [children?] is optional in the interface; every use in the layout code
    treats an absent list like an empty one ([!node.children ||
    node.children.length === 0]), so the model keeps a list.  [width] and
    [height] are the optional scratch fields written by the metric pass.
    The fields [x?] and [y?] of the interface are never read or written. *)

Inductive MindMapNode : Type := mkNode {
  id : string;
  label : string;
  summary : string;
  quote : option string;
  pageNumber : Z;
  children : list MindMapNode;
  width : option Z;
  height : option Z
}.

(** All nodes of a tree, parent first, children in order. *)
Fixpoint preorder (node : MindMapNode) : list MindMapNode :=
  node :: flat_map preorder (children node).

Definition nodeCount (node : MindMapNode) : nat := length (preorder node).


Definition sumZ (l : list Z) : Z := fold_right Z.add 0 l.


(** ** Output records (React Flow nodes and edges)

    Only the fields that vary are kept: the constant [type: 'custom'],
    [animated], [style], handle positions and [markerEnd] are the same in
    every record. *)

Inductive EdgeType := EdgeDefault | EdgeStraight | EdgeStep | EdgeSmoothstep | EdgeSimplebezier.
Inductive FontSize := FontSmall | FontMedium | FontLarge.

Record MindMapOptions := { edgeType : EdgeType; fontSize : FontSize }.

Definition fontSizeClassOf (f : FontSize) : string :=
  match f with
  | FontSmall => "text-xs"
  | FontMedium => "text-sm"
  | FontLarge => "text-base"
  end.

Record FlowNode := {
  n_id : string;
  n_x : num;
  n_y : num;
  n_label : string;
  n_summary : string;
  n_pageNumber : Z;
  n_quote : option string;
  n_fontSizeClass : string
}.

Record FlowEdge := {
  e_id : string;
  e_source : string;
  e_target : string;
  e_type : EdgeType
}.

(** [if (parentId)]: the optional argument is falsy when it was not passed
    and when it is the empty string. *)
Definition truthyId (parentId : option string) : bool :=
  match parentId with
  | Some s => negb (String.eqb s "")
  | None => false
  end.

Definition mkEdge (options : MindMapOptions) (parentId : string)
    (node : MindMapNode) : FlowEdge :=
  {| e_id := (parentId ++ "-" ++ id node)%string;
     e_source := parentId;
     e_target := id node;
     e_type := edgeType options |}.

(** [edges.push(...)] under [if (parentId)]. *)
Definition pushEdge (options : MindMapOptions) (parentId : option string)
    (node : MindMapNode) (edges : list FlowEdge) : list FlowEdge :=
  match parentId with
  | Some p => if truthyId parentId then edges ++ [mkEdge options p node]
              else edges
  | None => edges
  end.

Definition mkFlowNode (options : MindMapOptions) (node : MindMapNode)
    (x y : num) : FlowNode :=
  {| n_id := id node;
     n_x := x;
     n_y := y;
     n_label := label node;
     n_summary := summary node;
     n_pageNumber := pageNumber node;
     n_quote := quote node;
     n_fontSizeClass := fontSizeClassOf (fontSize options) |}.

(** ** Reference definitions shared by the two layouts *)

(** A frame is one invocation of [assignPositions]: the subtree and the
    cursor [(x, y)] it was called with. *)
Definition Frame : Type := (MindMapNode * num * num)%type.

Definition frameNode (f : Frame) : MindMapNode := fst (fst f).
Definition frameX (f : Frame) : num := snd (fst f).
Definition frameY (f : Frame) : num := snd f.

(** The span allocated to a frame along the secondary axis: it starts at
    the cursor and is as long as the footprint of the subtree. *)
Definition span (fp : MindMapNode -> option Z) (axis : Frame -> num)
    (f : Frame) : option (Z * Z) :=
  match axis f, fp (frameNode f) with
  | Some s, Some w => Some (s, s + w)
  | _, _ => None
  end.

(** Two spans, both defined and not empty, the first ending no later than
    the second starts. *)
Definition apart (a b : option (Z * Z)) : Prop :=
  match a, b with
  | Some (lo1, hi1), Some (lo2, hi2) => lo1 < hi1 /\ hi1 <= lo2 /\ lo2 < hi2
  | _, _ => False
  end.

(** The sibling frames of a list, taken in order, have spans apart. *)
Definition siblingsApart (fp : MindMapNode -> option Z)
    (axis : Frame -> num) (fs : list Frame) : Prop :=
  ForallOrdPairs (fun f g => apart (span fp axis f) (span fp axis g)) fs.


(** [fs] lists the invocations behind the records [out]: one record per
    frame, in order, and the frames of the recursive calls of a listed
    frame are listed too. *)
Definition tracedBy (placed : Frame -> FlowNode)
    (childFrames : Frame -> list Frame)
    (out : list FlowNode) (fs : list Frame) : Prop :=
  out = map placed fs /\ Forall (fun f => incl (childFrames f) fs) fs.

(** The edges one expects: for every node other than the root of the call,
    in pre-order, one edge from its parent's id. *)
Fixpoint linksOf (options : MindMapOptions) (node : MindMapNode)
  : list FlowEdge :=
  flat_map (fun c => mkEdge options (id node) c :: linksOf options c)
           (children node).

(** The edges the code pushes for a subtree called with [parentId]. *)
Fixpoint edgesOf (options : MindMapOptions) (parentId : option string)
    (node : MindMapNode) : list FlowEdge :=
  pushEdge options parentId node []
  ++ flat_map (edgesOf options (Some (id node))) (children node).

(** Every node that has children has a non-empty id. *)
Definition parentIdOk (n : MindMapNode) : bool :=
  match children n with
  | [] => true
  | _ => negb (String.eqb (id n) "")
  end.

Definition parentIdsOk (t : MindMapNode) : bool :=
  forallb parentIdOk (preorder t).

(** * Top-down layout (footprints are widths) *)

Module TopDown.

Definition NODE_WIDTH : Z := 260.
Definition NODE_HEIGHT : Z := 140.
Definition X_SPACING : Z := 30.
Definition Y_SPACING : Z := 80.

Definition setWidth (node : MindMapNode) (cs : list MindMapNode) (w : Z)
  : MindMapNode :=
  mkNode (id node) (label node) (summary node) (quote node)
         (pageNumber node) cs (Some w) (height node).

(** The [forEach] of [calculateSubtreeSize], over the children [cs] from
    [index] on; [calc] is the recursive call and [len] is
    [node.children.length]. *)
Definition sizeEach (calc : MindMapNode -> MindMapNode * Z) (len : Z) :=
  fix forEach (cs : list MindMapNode) (index totalWidth : Z)
    : list MindMapNode * Z :=
    match cs with
    | [] => ([], totalWidth)
    | child :: rest =>
      let '(child', width) := calc child in
      let totalWidth := totalWidth + width in
      let totalWidth :=
        if index <? len - 1 then totalWidth + X_SPACING else totalWidth in
      let '(rest', totalWidth) := forEach rest (index + 1) totalWidth in
      (child' :: rest', totalWidth)
    end.

(** [calculateSubtreeSize]: returns the node as the in-place writes leave
    it, and the returned width. *)
Fixpoint calculateSubtreeSize (node : MindMapNode) : MindMapNode * Z :=
  match children node with
  | [] => (setWidth node [] NODE_WIDTH, NODE_WIDTH)
  | cs =>
    let '(cs', totalWidth) :=
      sizeEach calculateSubtreeSize (Z.of_nat (length cs)) cs 0 0 in
    let w := Z.max NODE_WIDTH totalWidth in
    (setWidth node cs' w, w)
  end.

(** The [forEach] of [assignPositions]; [assign] is the recursive call with
    the rank coordinate and the parent id already fixed. *)
Definition placeEach
    (assign : MindMapNode -> num -> list FlowNode -> list FlowEdge
              -> list FlowNode * list FlowEdge) :=
  fix forEach (cs : list MindMapNode) (currentX : num)
      (nodes : list FlowNode) (edges : list FlowEdge)
    : list FlowNode * list FlowEdge :=
    match cs with
    | [] => (nodes, edges)
    | child :: rest =>
      let '(nodes, edges) := assign child currentX nodes edges in
      forEach rest (currentX + width child + Some X_SPACING)%num nodes edges
    end.

(** [assignPositions]: the two output arrays are threaded through. *)
Fixpoint assignPositions (node : MindMapNode) (x y : num)
    (nodes : list FlowNode) (edges : list FlowEdge)
    (options : MindMapOptions) (parentId : option string)
  : list FlowNode * list FlowEdge :=
  let myX := (x + nhalf (width node) - nhalf (Some NODE_WIDTH))%num in
  let nodes := nodes ++ [mkFlowNode options node myX y] in
  let edges := pushEdge options parentId node edges in
  match children node with
  | [] => (nodes, edges)
  | cs =>
    let currentX := x in
    placeEach
      (fun child currentX nodes edges =>
         assignPositions child currentX
           (y + Some NODE_HEIGHT + Some Y_SPACING)%num
           nodes edges options (Some (id node)))
      cs currentX nodes edges
  end.

(** The layout of the component's [useMemo]: nothing for absent data;
    otherwise sizes, then positions from the origin, into two fresh
    arrays. *)
Definition layout (data : option MindMapNode) (options : MindMapOptions)
  : list FlowNode * list FlowEdge :=
  match data with
  | None => ([], [])
  | Some root =>
    assignPositions (fst (calculateSubtreeSize root)) (Some 0) (Some 0)
      [] [] options None
  end.

(** Reference definitions for the top-down layout. *)

(** The footprint law as a function of the tree. *)
Fixpoint footprint (node : MindMapNode) : Z :=
  match children node with
  | [] => NODE_WIDTH
  | cs => Z.max NODE_WIDTH
            (sumZ (map footprint cs)
             + (Z.of_nat (length cs) - 1) * X_SPACING)
  end.

(** The tree with every [width] set to its footprint. *)
Fixpoint sized (node : MindMapNode) : MindMapNode :=
  setWidth node (map sized (children node)) (footprint node).

(** The frames of the direct recursive calls of one invocation. *)
Fixpoint childFramesFrom (cs : list MindMapNode) (currentX y : num)
  : list Frame :=
  match cs with
  | [] => []
  | child :: rest =>
    (child, currentX, y)
      :: childFramesFrom rest (currentX + width child + Some X_SPACING)%num y
  end.

Definition childFrames (f : Frame) : list Frame :=
  childFramesFrom (children (frameNode f)) (frameX f)
    (frameY f + Some NODE_HEIGHT + Some Y_SPACING)%num.

(** All the frames of an invocation, in the order of the calls. *)
Definition framesEach (fr : MindMapNode -> num -> list Frame) :=
  fix each (cs : list MindMapNode) (currentX : num) : list Frame :=
    match cs with
    | [] => []
    | child :: rest =>
      fr child currentX
      ++ each rest (currentX + width child + Some X_SPACING)%num
    end.

Fixpoint frames (node : MindMapNode) (x y : num) : list Frame :=
  (node, x, y) ::
  framesEach
    (fun child currentX =>
       frames child currentX (y + Some NODE_HEIGHT + Some Y_SPACING)%num)
    (children node) x.

(** The record pushed by the invocation with frame [f]. *)
Definition placed (options : MindMapOptions) (f : Frame) : FlowNode :=
  mkFlowNode options (frameNode f)
    (frameX f + nhalf (width (frameNode f)) - nhalf (Some NODE_WIDTH))%num
    (frameY f).

(** The centre of the node's box along the secondary axis. *)
Definition boxCentre (n : FlowNode) : num :=
  (n_x n + nhalf (Some NODE_WIDTH))%num.

(** Frames of a sized tree called at a defined cursor. *)
Definition sizedFrame (f : Frame) : Prop :=
  exists t x y, f = (sized t, Some x, Some y).

End TopDown.

(** * Left-to-right layout (footprints are heights) *)

Module LeftRight.

Definition NODE_WIDTH : Z := 280.
Definition NODE_HEIGHT : Z := 140.
Definition RANK_SPACING : Z := 140.
Definition NODE_SPACING : Z := 24.

Definition setHeight (node : MindMapNode) (cs : list MindMapNode) (h : Z)
  : MindMapNode :=
  mkNode (id node) (label node) (summary node) (quote node)
         (pageNumber node) cs (width node) (Some h).

(** The [forEach] of [calculateSubtreeHeight]. *)
Definition sizeEach (calc : MindMapNode -> MindMapNode * Z) (len : Z) :=
  fix forEach (cs : list MindMapNode) (index totalHeight : Z)
    : list MindMapNode * Z :=
    match cs with
    | [] => ([], totalHeight)
    | child :: rest =>
      let '(child', h) := calc child in
      let totalHeight := totalHeight + h in
      let totalHeight :=
        if index <? len - 1 then totalHeight + NODE_SPACING
        else totalHeight in
      let '(rest', totalHeight) := forEach rest (index + 1) totalHeight in
      (child' :: rest', totalHeight)
    end.

(** [calculateSubtreeHeight]: returns the node as the in-place writes leave
    it, and the returned height. *)
Fixpoint calculateSubtreeHeight (node : MindMapNode) : MindMapNode * Z :=
  match children node with
  | [] => (setHeight node [] NODE_HEIGHT, NODE_HEIGHT)
  | cs =>
    let '(cs', totalHeight) :=
      sizeEach calculateSubtreeHeight (Z.of_nat (length cs)) cs 0 0 in
    let h := Z.max NODE_HEIGHT totalHeight in
    (setHeight node cs' h, h)
  end.

(** [node.children.reduce((acc, c) => acc + (c.height || 0), 0)
     + (node.children.length - 1) * NODE_SPACING]. *)
Definition childrenStackHeight (cs : list MindMapNode) : Z :=
  fold_left (fun acc c => acc + orZero (height c)) cs 0
  + (Z.of_nat (length cs) - 1) * NODE_SPACING.

(** The [forEach] of [assignPositions]; [assign] is the recursive call with
    the rank coordinate and the parent id already fixed. *)
Definition placeEach
    (assign : MindMapNode -> num -> list FlowNode -> list FlowEdge
              -> list FlowNode * list FlowEdge) :=
  fix forEach (cs : list MindMapNode) (currentY : num)
      (nodes : list FlowNode) (edges : list FlowEdge)
    : list FlowNode * list FlowEdge :=
    match cs with
    | [] => (nodes, edges)
    | child :: rest =>
      let '(nodes, edges) := assign child currentY nodes edges in
      forEach rest (currentY + height child + Some NODE_SPACING)%num
        nodes edges
    end.

(** [assignPositions]: the two output arrays are threaded through. *)
Fixpoint assignPositions (node : MindMapNode) (x y : num)
    (nodes : list FlowNode) (edges : list FlowEdge)
    (options : MindMapOptions) (parentId : option string)
  : list FlowNode * list FlowEdge :=
  let myY := (y + nhalf (height node) - nhalf (Some NODE_HEIGHT))%num in
  let myX := x in
  let nodes := nodes ++ [mkFlowNode options node myX myY] in
  let edges := pushEdge options parentId node edges in
  match children node with
  | [] => (nodes, edges)
  | cs =>
    let childX := (x + Some NODE_WIDTH + Some RANK_SPACING)%num in
    let currentY := y in
    let offset :=
      nhalf (height node - Some (childrenStackHeight cs))%num in
    let currentY := (currentY + offset)%num in
    placeEach
      (fun child currentY nodes edges =>
         assignPositions child childX currentY nodes edges options
           (Some (id node)))
      cs currentY nodes edges
  end.

(** The layout of the component's [useMemo]. *)
Definition layout (data : option MindMapNode) (options : MindMapOptions)
  : list FlowNode * list FlowEdge :=
  match data with
  | None => ([], [])
  | Some root =>
    assignPositions (fst (calculateSubtreeHeight root)) (Some 0) (Some 0)
      [] [] options None
  end.

(** Reference definitions for the left-to-right layout. *)

Fixpoint footprint (node : MindMapNode) : Z :=
  match children node with
  | [] => NODE_HEIGHT
  | cs => Z.max NODE_HEIGHT
            (sumZ (map footprint cs)
             + (Z.of_nat (length cs) - 1) * NODE_SPACING)
  end.

Fixpoint sized (node : MindMapNode) : MindMapNode :=
  setHeight node (map sized (children node)) (footprint node).

Fixpoint childFramesFrom (cs : list MindMapNode) (x currentY : num)
  : list Frame :=
  match cs with
  | [] => []
  | child :: rest =>
    (child, x, currentY)
      :: childFramesFrom rest x
           (currentY + height child + Some NODE_SPACING)%num
  end.

(** Where the block of the children of [node] starts. *)
Definition childStart (node : MindMapNode) (y : num) : num :=
  (y + nhalf (height node - Some (childrenStackHeight (children node))))%num.

Definition childFrames (f : Frame) : list Frame :=
  childFramesFrom (children (frameNode f))
    (frameX f + Some NODE_WIDTH + Some RANK_SPACING)%num
    (childStart (frameNode f) (frameY f)).

Definition framesEach (fr : MindMapNode -> num -> list Frame) :=
  fix each (cs : list MindMapNode) (currentY : num) : list Frame :=
    match cs with
    | [] => []
    | child :: rest =>
      fr child currentY
      ++ each rest (currentY + height child + Some NODE_SPACING)%num
    end.

Fixpoint frames (node : MindMapNode) (x y : num) : list Frame :=
  (node, x, y) ::
  framesEach
    (fun child currentY =>
       frames child (x + Some NODE_WIDTH + Some RANK_SPACING)%num currentY)
    (children node) (childStart node y).

Definition placed (options : MindMapOptions) (f : Frame) : FlowNode :=
  mkFlowNode options (frameNode f)
    (frameX f)
    (frameY f + nhalf (height (frameNode f)) - nhalf (Some NODE_HEIGHT))%num.

Definition boxCentre (n : FlowNode) : num :=
  (n_y n + nhalf (Some NODE_HEIGHT))%num.

(** Frames of a sized tree called at a defined cursor. *)
Definition sizedFrame (f : Frame) : Prop :=
  exists t x y, f = (sized t, Some x, Some y).

End LeftRight.

(** The scenario tree of the specification: root -> [A -> [A1, A2], B]. *)
Definition leaf (i : string) : MindMapNode :=
  mkNode i i "" None 1 [] None None.

Definition scenarioA : MindMapNode :=
  mkNode "A" "A" "" None 1 [leaf "A1"; leaf "A2"] None None.

Definition scenario : MindMapNode :=
  mkNode "root" "root" "" None 1 [scenarioA; leaf "B"] None None.

(** * Tree reconstruction ([buildTreeFromFlatList])

    ** JavaScript values

    The records come from [JSON.parse] and are typed [any]: a field may
    hold a string, a number, a boolean or [null], and a missing field
    reads as [undefined].  [JNum] holds the integer-valued numbers, which
    [String] prints in plain decimal for magnitudes below 10^21.  Fields
    holding arrays or objects are outside the model.  For these values
    [===] and the key comparison of [Map] (SameValueZero) are both
    structural equality. *)

Inductive jsval : Type :=
| JUndefined
| JNull
| JBool (b : bool)
| JNum (n : Z)
| JStr (s : string).

Definition jsval_eqb (a b : jsval) : bool :=
  match a, b with
  | JUndefined, JUndefined => true
  | JNull, JNull => true
  | JBool x, JBool y => Bool.eqb x y
  | JNum x, JNum y => Z.eqb x y
  | JStr x, JStr y => String.eqb x y
  | _, _ => false
  end.

(** Truthiness, as tested by [if (v)], [v || d] and [v && w]. *)
Definition truthy (v : jsval) : bool :=
  match v with
  | JUndefined | JNull => false
  | JBool b => b
  | JNum n => negb (n =? 0)
  | JStr s => negb (String.eqb s "")
  end.

(** [String(v)]. *)
Definition js_String (v : jsval) : string :=
  match v with
  | JUndefined => "undefined"
  | JNull => "null"
  | JBool true => "true"
  | JBool false => "false"
  | JNum n => NilZero.string_of_int (Z.to_int n)
  | JStr s => s
  end.

(** [a || b]. *)
Definition js_or (a b : jsval) : jsval := if truthy a then a else b.

(** [typeof v === 'number' ? v : 1]. *)
Definition numberOr1 (v : jsval) : jsval :=
  match v with
  | JNum _ => v
  | _ => JNum 1
  end.

(** A raw record of the generator; a missing field is [JUndefined]. *)
Record RawNode : Type := {
  raw_id : jsval;
  raw_parentId : jsval;
  raw_label : jsval;
  raw_summary : jsval;
  raw_quote : jsval;
  raw_pageNumber : jsval
}.

(** ** Node objects and the map that holds them

    A node object is mutated after it is created ([children.push]) and is
    reached through references held in [nodeMap], in [children] arrays and
    in [root].  After the first pass [nodeMap] is never written again, and
    an object replaced under a repeated key is no longer referenced by
    anything: every live node object is the value of exactly one key, and
    a reference to it is represented by that key.  [R] is the type of
    references. *)

Record NodeObj (R : Type) : Type := {
  o_id : jsval;
  o_label : jsval;
  o_summary : jsval;
  o_quote : jsval;
  o_pageNumber : jsval;
  o_children : list R
}.

Arguments o_id {R} _.
Arguments o_label {R} _.
Arguments o_summary {R} _.
Arguments o_quote {R} _.
Arguments o_pageNumber {R} _.
Arguments o_children {R} _.

Definition pushTo {R : Type} (o : NodeObj R) (r : R) : NodeObj R :=
  {| o_id := o_id o; o_label := o_label o; o_summary := o_summary o;
     o_quote := o_quote o; o_pageNumber := o_pageNumber o;
     o_children := o_children o ++ [r] |}.

(** A JavaScript [Map]: entries in insertion order; [set] on a key already
    present replaces the value and keeps the entry's place. *)
Section JsMap.
Context {V : Type}.

Definition JsMap : Type := list (jsval * V).

Fixpoint map_set (m : JsMap) (k : jsval) (v : V) : JsMap :=
  match m with
  | [] => [(k, v)]
  | (k', v') :: rest =>
    if jsval_eqb k' k then (k', v) :: rest
    else (k', v') :: map_set rest k v
  end.

Fixpoint map_get (m : JsMap) (k : jsval) : option V :=
  match m with
  | [] => None
  | (k', v') :: rest => if jsval_eqb k' k then Some v' else map_get rest k
  end.

Definition map_has (m : JsMap) (k : jsval) : bool :=
  match map_get m k with Some _ => true | None => false end.

Definition map_size (m : JsMap) : nat := length m.

Definition map_keys (m : JsMap) : list jsval := map fst m.


(** In-place update of the object held under [k]. *)
Fixpoint map_update (m : JsMap) (k : jsval) (f : V -> V) : JsMap :=
  match m with
  | [] => []
  | (k', v') :: rest =>
    if jsval_eqb k' k then (k', f v') :: rest
    else (k', v') :: map_update rest k f
  end.

End JsMap.

Arguments JsMap V : clear implicits.

(** The outcome of a function that may [throw new Error(msg)]. *)
Inductive outcome (A : Type) : Type :=
| Returned (a : A)
| Thrown (msg : string).

Arguments Returned {A} _.
Arguments Thrown {A} _.

(** [MindMapData], with the node objects the root refers to. *)
Record MindMapData (S R : Type) : Type := {
  objects : S;
  root : R;
  markdownSummary : string;
  researchReport : string
}.

Arguments objects {S R} _.
Arguments root {S R} _.
Arguments markdownSummary {S R} _.
Arguments researchReport {S R} _.

(** ** Reference definitions on object graphs *)

Section Graph.
Context {R : Type}.
Variable lookup : R -> option (NodeObj R).

(** [c] is in the [children] array of [p]. *)
Definition child_of (p c : R) : Prop :=
  match lookup p with
  | Some o => In c (o_children o)
  | None => False
  end.

(** [n] is [r] or a descendant of [r]. *)
Definition reachable (r n : R) : Prop := clos_refl_trans R child_of r n.


End Graph.


(** * Version that adopts the first parentless record as root
    ([services/geminiService.ts]) *)

Module AdoptFirstRoot.

Abbreviation Ref := jsval.
Abbreviation Store := (JsMap (NodeObj jsval)).

(** The object literal of the first pass. *)
Definition newNode (raw : RawNode) : NodeObj Ref :=
  {| o_id := raw_id raw;
     o_label := js_or (raw_label raw) (JStr "Untitled");
     o_summary := js_or (raw_summary raw) (JStr "");
     o_quote := js_or (raw_quote raw) (JStr "");
     o_pageNumber := numberOr1 (raw_pageNumber raw);
     o_children := [] |}.

(** First pass, one record: [nodeMap.set(raw.id, { ... })]. *)
Definition create (nodeMap : Store) (raw : RawNode) : Store :=
  map_set nodeMap (raw_id raw) (newNode raw).

(** [(raw.parentId === "null" || raw.parentId === "") ? null : raw.parentId]. *)
Definition parentOf (raw : RawNode) : jsval :=
  if jsval_eqb (raw_parentId raw) (JStr "null")
     || jsval_eqb (raw_parentId raw) (JStr "")
  then JNull else raw_parentId raw.

(** Second pass, one record; the state is [nodeMap] and the variable
    [root]. *)
Definition link (st : Store * option Ref) (raw : RawNode)
  : Store * option Ref :=
  let '(nodeMap, root) := st in
  match map_get nodeMap (raw_id raw) with
  | None => st
  | Some _ =>
    let node : Ref := raw_id raw in
    let pId := parentOf raw in
    if truthy pId then
      match map_get nodeMap pId with
      | Some _ => (map_update nodeMap pId (fun parent => pushTo parent node),
                   root)
      | None => st
      end
    else
      (nodeMap, match root with None => Some node | Some _ => root end)
  end.

Definition buildTreeFromFlatList (flatNodes : list RawNode)
  : outcome (MindMapData Store Ref) :=
  let nodeMap := fold_left create flatNodes [] in
  let '(nodeMap, root) := fold_left link flatNodes (nodeMap, None) in
  match root with
  | Some r =>
    Returned {| objects := nodeMap; root := r;
                markdownSummary := ""; researchReport := "" |}
  | None =>
    match map_keys nodeMap with
    | first :: _ =>
      Returned {| objects := nodeMap; root := first;
                  markdownSummary := ""; researchReport := "" |}
    | [] => Thrown "The mind map returned by AI was empty."
    end
  end.

(** Dereferencing. *)
Definition lookup (s : Store) (r : Ref) : option (NodeObj Ref) := map_get s r.

(** All the references held in [children] arrays. *)
Definition allChildren (s : Store) : list Ref :=
  flat_map (fun kv => o_children (snd kv)) s.

(** The parent link a record declares. *)
Definition declares (flatNodes : list RawNode) (p c : jsval) : Prop :=
  exists raw, In raw flatNodes /\ c = raw_id raw /\ p = parentOf raw
              /\ truthy p = true.

End AdoptFirstRoot.

(** * Version with a synthetic root *)

Module SyntheticRoot.

Inductive Ref : Type :=
| RSynthetic
| RNode (key : jsval).

Record Store : Type := {
  nodeMap : JsMap (NodeObj Ref);
  syntheticRoot : NodeObj Ref
}.

Definition safeId (raw : RawNode) : jsval := JStr (js_String (raw_id raw)).

(** The object literal of the first pass. *)
Definition newNode (raw : RawNode) : NodeObj Ref :=
  {| o_id := safeId raw;
     o_label := js_or (raw_label raw) (JStr "未命名");
     o_summary := js_or (raw_summary raw) (JStr "");
     o_quote := js_or (raw_quote raw) (JStr "");
     o_pageNumber := numberOr1 (raw_pageNumber raw);
     o_children := [] |}.

(** First pass, one record: [nodeMap.set(safeId, { ... })]. *)
Definition create (nodeMap : JsMap (NodeObj Ref)) (raw : RawNode)
  : JsMap (NodeObj Ref) :=
  map_set nodeMap (safeId raw) (newNode raw).

(** The synthetic root as created; it has no [quote]. *)
Definition newSyntheticRoot : NodeObj Ref :=
  {| o_id := JStr "root-synthetic";
     o_label := JStr "文档概览";
     o_summary := JStr "论文交互式导图";
     o_quote := JUndefined;
     o_pageNumber := JNum 1;
     o_children := [] |}.

(** [if (pId === "null" || pId === null || pId === undefined) pId = null;
     else pId = String(pId)]. *)
Definition parentOf (raw : RawNode) : jsval :=
  match raw_parentId raw with
  | JNull | JUndefined => JNull
  | v => if jsval_eqb v (JStr "null") then JNull else JStr (js_String v)
  end.

(** Third step of the source, one record. *)
Definition link (st : Store) (raw : RawNode) : Store :=
  match map_get (nodeMap st) (safeId raw) with
  | None => st
  | Some _ =>
    let node : Ref := RNode (safeId raw) in
    let pId := parentOf raw in
    if truthy pId && map_has (nodeMap st) pId then
      {| nodeMap := map_update (nodeMap st) pId
                      (fun parent => pushTo parent node);
         syntheticRoot := syntheticRoot st |}
    else
      {| nodeMap := nodeMap st;
         syntheticRoot := pushTo (syntheticRoot st) node |}
  end.

(** [if (syntheticRoot.children.length === 0 && nodeMap.size > 0)
     nodeMap.forEach(node => syntheticRoot.children.push(node))]. *)
Definition fallback (st : Store) : Store :=
  if (length (o_children (syntheticRoot st)) =? 0)%nat
     && (0 <? map_size (nodeMap st))%nat
  then
    {| nodeMap := nodeMap st;
       syntheticRoot :=
         fold_left (fun root k => pushTo root (RNode k))
           (map_keys (nodeMap st)) (syntheticRoot st) |}
  else st.

(** The objects after the first two steps: one node per key, and the
    synthetic root. *)
Definition initial (flatNodes : list RawNode) : Store :=
  {| nodeMap := fold_left create flatNodes [];
     syntheticRoot := newSyntheticRoot |}.

Definition buildTreeFromFlatList (flatNodes : list RawNode)
  : outcome (MindMapData Store Ref) :=
  let st := initial flatNodes in
  let st := fold_left link flatNodes st in
  let st := fallback st in
  Returned {| objects := st; root := RSynthetic;
              markdownSummary := ""; researchReport := "" |}.

(** Dereferencing. *)
Definition lookup (s : Store) (r : Ref) : option (NodeObj Ref) :=
  match r with
  | RSynthetic => Some (syntheticRoot s)
  | RNode k => map_get (nodeMap s) k
  end.

(** All the references held in [children] arrays. *)
Definition allChildren (s : Store) : list Ref :=
  o_children (syntheticRoot s)
  ++ flat_map (fun kv => o_children (snd kv)) (nodeMap s).


(** The parent link a record declares. *)
Definition declares (flatNodes : list RawNode) (p c : jsval) : Prop :=
  exists raw, In raw flatNodes /\ c = safeId raw /\ p = parentOf raw
              /\ truthy p = true.

(** The links that can exist between references: declared ones between
    nodes, and any node under the synthetic root. *)
Definition declaresRef (flatNodes : list RawNode) (p c : Ref) : Prop :=
  match p, c with
  | RNode pk, RNode ck => declares flatNodes pk ck
  | RSynthetic, RNode _ => True
  | _, RSynthetic => False
  end.

(** A record that the third step puts under the synthetic root: its
    normalised parent is null, empty, or not the key of any record. *)
Definition topLevel (flatNodes : list RawNode) (raw : RawNode) : bool :=
  negb (truthy (parentOf raw)
        && existsb (fun r => jsval_eqb (safeId r) (parentOf raw)) flatNodes).

End SyntheticRoot.

(** ** Sample records *)

Definition record (i p : jsval) : RawNode :=
  {| raw_id := i; raw_parentId := p; raw_label := JUndefined;
     raw_summary := JUndefined; raw_quote := JUndefined;
     raw_pageNumber := JUndefined |}.

Definition introRecord : RawNode :=
  {| raw_id := JStr "1"; raw_parentId := JNull; raw_label := JStr "Intro";
     raw_summary := JUndefined; raw_quote := JUndefined;
     raw_pageNumber := JUndefined |}.

(** The orphan example: "a" names the absent parent "x"; "b" is top-level. *)
Definition orphanInput : list RawNode :=
  [record (JStr "a") (JStr "x"); record (JStr "b") JNull].

(** * Further reference definitions

    ** Layout *)

(** The depth of every node, in pre-order, the root being at depth [d]. *)
Fixpoint depthsFrom (d : nat) (node : MindMapNode) : list nat :=
  d :: flat_map (depthsFrom (S d)) (children node).

(** The number of childless nodes of a subtree. *)
Fixpoint leafCount (node : MindMapNode) : Z :=
  match children node with
  | [] => 1
  | cs => sumZ (map leafCount cs)
  end.

(** What a record shows of its node, and what the node holds. *)
Definition shown (n : FlowNode)
  : string * string * string * Z * option string * string :=
  (n_id n, n_label n, n_summary n, n_pageNumber n, n_quote n,
   n_fontSizeClass n).

Definition payloadOf (options : MindMapOptions) (node : MindMapNode)
  : string * string * string * Z * option string * string :=
  (id node, label node, summary node, pageNumber node, quote node,
   fontSizeClassOf (fontSize options)).

(** Among the records [out], taken in order, any two of the same rank are
    at least [gap] apart along the packing axis: the later one starts no
    earlier than [gap] after the start of the earlier one. *)
Definition separated (rank pos : FlowNode -> num) (gap : Z)
    (out : list FlowNode) : Prop :=
  ForallOrdPairs
    (fun a b =>
       rank a = rank b ->
       exists pa pb, pos a = Some pa /\ pos b = Some pb /\ pa + gap <= pb)
    out.

(** Every record of [out] has its box, of size [box], inside [0, total]
    along the packing axis. *)
Definition boxesWithin (pos : FlowNode -> num) (box total : Z)
    (out : list FlowNode) : Prop :=
  Forall (fun n => exists p, pos n = Some p /\ 0 <= p /\ p + box <= total)
         out.

(** The slot of an invocation: its depth, the start of its span and the
    length of its span, for a footprint function [fp] and a spacing. *)
Definition Slot : Type := (nat * Z * Z)%type.

Definition slotDepth (sl : Slot) : nat := fst (fst sl).
Definition slotStart (sl : Slot) : Z := snd (fst sl).
Definition slotLength (sl : Slot) : Z := snd sl.

Section Slots.
Variables (BASE SPACING : Z) (fp : MindMapNode -> Z).

Definition slotsEach (rec : MindMapNode -> Z -> list Slot) :=
  fix each (cs : list MindMapNode) (s : Z) : list Slot :=
    match cs with
    | [] => []
    | c :: rest => rec c s ++ each rest (s + fp c + SPACING)
    end.

Fixpoint slots (d : nat) (node : MindMapNode) (s : Z) : list Slot :=
  (d, s, fp node)
    :: slotsEach (fun c s' => slots (S d) c s') (children node) s.

(** A slot inside the span that starts at [s] and is [w] long, at depth
    [d] or deeper, and at least [BASE] long. *)
Definition insideOf (d : nat) (s w : Z) (sl : Slot) : Prop :=
  s <= slotStart sl /\ slotStart sl + slotLength sl <= s + w
  /\ (d <= slotDepth sl)%nat /\ BASE <= slotLength sl.

(** Two slots of the same depth, the second [SPACING] after the first. *)
Definition slotsApart (a b : Slot) : Prop :=
  slotDepth a = slotDepth b ->
  slotStart a + slotLength a + SPACING <= slotStart b.

(** What a run of siblings takes, with a spacing after each. *)
Definition runLength (cs : list MindMapNode) : Z :=
  sumZ (map fp cs) + Z.of_nat (length cs) * SPACING.

End Slots.


(** ** Reconstruction *)

(** The distinct keys of a list, each at the place of its first
    occurrence. *)
Fixpoint firstKeys (l : list jsval) : list jsval :=
  match l with
  | [] => []
  | k :: rest =>
    k :: filter (fun k' => negb (jsval_eqb k' k)) (firstKeys rest)
  end.






(** Version that adopts the first parentless record: the record is
    parentless. *)
Definition adoptParentless (raw : RawNode) : bool :=
  negb (truthy (AdoptFirstRoot.parentOf raw)).


(** Version with a synthetic root: the record names [p] as its parent. *)
Definition synthLinkedUnder (p : jsval) (raw : RawNode) : bool :=
  truthy (SyntheticRoot.parentOf raw)
  && jsval_eqb (SyntheticRoot.parentOf raw) p.

Definition synthRef (raw : RawNode) : SyntheticRoot.Ref :=
  SyntheticRoot.RNode (SyntheticRoot.safeId raw).

(** Version with a synthetic root: the children of every object of the
    map are the records of [seen] that name it, and the children of the
    synthetic root are the top-level records of [seen], in order. *)
Definition synthChildrenAre (flatNodes seen : list RawNode)
    (st : SyntheticRoot.Store) : Prop :=
  (forall p o,
      map_get (SyntheticRoot.nodeMap st) p = Some o ->
      o_children o = map synthRef (filter (synthLinkedUnder p) seen))
  /\ o_children (SyntheticRoot.syntheticRoot st)
     = map synthRef (filter (SyntheticRoot.topLevel flatNodes) seen).

(** * Text extraction ([extractTextFromPDF] of the PDF service)

    ** JavaScript strings as sequences of UTF-16 code units

    The texts of a document are kept as lists of code units, so that
    [trim] and the class [\s] of regular expressions see the white space
    of ECMAScript and not only that of ASCII. *)

Abbreviation jstext := (list Z).

Definition units (s : string) : jstext :=
  map (fun a => Z.of_N (N_of_ascii a)) (list_ascii_of_string s).

(** [WhiteSpace] and [LineTerminator]: tab, line feed, vertical tab, form
    feed, carriage return, space, no-break space, ogham space mark, en quad
    to hair space, line and paragraph separators, narrow no-break space,
    medium mathematical space, ideographic space, byte order mark. *)
Definition isWhiteSpace (c : Z) : bool :=
  existsb (Z.eqb c)
    [9; 10; 11; 12; 13; 32; 160; 5760; 8232; 8233; 8239; 8287; 12288; 65279]
  || ((8192 <=? c) && (c <=? 8202)).

Fixpoint trimStart (s : jstext) : jstext :=
  match s with
  | [] => []
  | c :: rest => if isWhiteSpace c then trimStart rest else s
  end.

Definition trimEnd (s : jstext) : jstext := rev (trimStart (rev s)).

(** [s.trim()]. *)
Definition trim (s : jstext) : jstext := trimEnd (trimStart s).

(** Truthiness of a string. *)
Definition nonEmpty (s : jstext) : bool :=
  match s with [] => false | _ :: _ => true end.

(** [parts.join(sep)]. *)
Fixpoint join (sep : jstext) (parts : list jstext) : jstext :=
  match parts with
  | [] => []
  | p :: rest =>
    match rest with
    | [] => p
    | _ :: _ => p ++ sep ++ join sep rest
    end
  end.

(** [`${i}`] for a page number. *)
Definition decimal (i : nat) : jstext :=
  units (NilEmpty.string_of_uint (Nat.to_uint i)).

(** ** What a [catch] clause receives

    Either an instance of [Error], whose message is a string, or another
    value, of which only the [message] property matters ([undefined] when
    it has none).  The values [null] and [undefined] themselves are not
    covered: reading their [message] fails. *)
Inductive thrown : Type :=
| AnError (message : string)
| NotAnError (message : jsval).

Definition messageOf (e : thrown) : jsval :=
  match e with
  | AnError m => JStr m
  | NotAnError v => v
  end.

(** [String(error.message || dflt)], the message of
    [new Error(error.message || dflt)]. *)
Definition messageOr (dflt : string) (e : thrown) : string :=
  js_String (js_or (messageOf e) (JStr dflt)).

(** ** The document as PDF.js presents it

    [getPage(i)] followed by [getTextContent()] either fails or gives the
    items of the page; an item may lack its [str]. *)
Inductive PageResult : Type :=
| PageFailed
| PageItems (items : list (option jstext)).

Record PDFDocumentProxy : Type := {
  numPages : nat;
  getPage : nat -> PageResult
}.

(** Reading the file and opening the document. *)
Inductive LoadResult : Type :=
| LoadFailed (e : thrown)
| Loaded (pdf : PDFDocumentProxy).

(** [item.str || '']. *)
Definition strOr (item : option jstext) : jstext :=
  match item with
  | Some s => if nonEmpty s then s else []
  | None => []
  end.

(** The block appended for page [i]. *)
Definition pageBlock (i : nat) (pageText : jstext) : jstext :=
  [10] ++ units "--- PAGE " ++ decimal i ++ units " START ---" ++ [10]
  ++ pageText
  ++ [10] ++ units "--- PAGE " ++ decimal i ++ units " END ---" ++ [10].

(** ** The sequential version ([services/pdfService.ts]) *)
Module Sequential.

(** One turn of the loop over the pages. *)
Definition readPage (pdf : PDFDocumentProxy) (fullText : jstext) (i : nat)
  : jstext :=
  match getPage pdf i with
  | PageItems items =>
    let pageText := join [32] (map strOr items) in
    if nonEmpty (trim pageText)
    then fullText ++ pageBlock i pageText
    else fullText
  | PageFailed => fullText
  end.

(** The [try] block. *)
Definition attempt (libraryLoaded : bool) (load : LoadResult)
  : thrown + jstext :=
  if negb libraryLoaded then
    inl (AnError "PDF.js library is not loaded. Please refresh the page.")
  else
    match load with
    | LoadFailed e => inl e
    | Loaded pdf =>
      let totalPages := numPages pdf in
      let maxPagesToRead := Nat.min totalPages 20 in
      let fullText :=
        fold_left (readPage pdf) (seq 1 maxPagesToRead) [] in
      if negb (nonEmpty (trim fullText)) then
        inl (AnError "Could not extract any text from the PDF. It might be scanned or image-based.")
      else inr fullText
    end.

Definition extractTextFromPDF (libraryLoaded : bool) (load : LoadResult)
  : outcome jstext :=
  match attempt libraryLoaded load with
  | inr fullText => Returned fullText
  | inl (AnError message) => Thrown message
  | inl (NotAnError _) => Thrown "Unknown error during PDF extraction"
  end.

End Sequential.

(** ** The parallel version with a time limit (second version of the
    service)

    Which of the extraction and the timer settles first is an input. *)
Module Parallel.

Record PageText : Type := { index : nat; text : jstext }.

(** One page promise, with its [catch]. *)
Definition pagePromise (pdf : PDFDocumentProxy) (i : nat) : PageText :=
  match getPage pdf i with
  | PageItems items => {| index := i; text := join [32] (map strOr items) |}
  | PageFailed => {| index := i; text := [] |}
  end.

(** [sort((a, b) => a.index - b.index)], which is stable. *)
Fixpoint insertByIndex (p : PageText) (l : list PageText) : list PageText :=
  match l with
  | [] => [p]
  | q :: rest =>
    if (index p <=? index q)%nat then p :: l else q :: insertByIndex p rest
  end.

Definition sortByIndex (l : list PageText) : list PageText :=
  fold_right insertByIndex [] l.

Definition appendPage (fullText : jstext) (p : PageText) : jstext :=
  if nonEmpty (trim (text p))
  then fullText ++ pageBlock (index p) (text p)
  else fullText.

Definition attempt (libraryLoaded : bool) (load : LoadResult)
  : thrown + jstext :=
  if negb libraryLoaded then
    inl (AnError "PDF.js library is not loaded. Please check your internet connection and refresh the page.")
  else
    match load with
    | LoadFailed e => inl e
    | Loaded pdf =>
      let totalPages := numPages pdf in
      let maxPagesToRead := Nat.min totalPages 15 in
      let pageResults := map (pagePromise pdf) (seq 1 maxPagesToRead) in
      let fullText := fold_left appendPage (sortByIndex pageResults) [] in
      if negb (nonEmpty (trim fullText)) then
        inl (AnError "Could not extract text. The PDF might be a scanned image.")
      else inr fullText
    end.

Definition extractionPromise (libraryLoaded : bool) (load : LoadResult)
  : outcome jstext :=
  match attempt libraryLoaded load with
  | inr fullText => Returned fullText
  | inl e => Thrown (messageOr "Unknown error during PDF extraction" e)
  end.

Definition extractTextFromPDF (extractionFirst libraryLoaded : bool)
    (load : LoadResult) : outcome jstext :=
  if extractionFirst then extractionPromise libraryLoaded load
  else Thrown "PDF extraction timed out (20s). The file may be too large or the network is slow.".

End Parallel.

(** ** Reference definitions on texts and documents *)

(** A text with a code unit that is not white space. *)
Definition visible (s : jstext) : bool :=
  existsb (fun c => negb (isWhiteSpace c)) s.

(** The text of page [i], empty when the page cannot be read. *)
Definition pageTextOf (pdf : PDFDocumentProxy) (i : nat) : jstext :=
  match getPage pdf i with
  | PageItems items => join [32] (map strOr items)
  | PageFailed => []
  end.

(** The pages that contribute: readable and not blank. *)
Definition readable (pdf : PDFDocumentProxy) (i : nat) : bool :=
  visible (pageTextOf pdf i).

(** The blocks of the contributing pages among [pages]. *)
Definition blocksOf (pdf : PDFDocumentProxy) (pages : list nat) : jstext :=
  flat_map (fun i => pageBlock i (pageTextOf pdf i))
           (filter (readable pdf) pages).

(** Two documents with the same pages up to the limit [n]. *)
Definition agreeUpTo (n : nat) (pdf pdf' : PDFDocumentProxy) : Prop :=
  Nat.min (numPages pdf) n = Nat.min (numPages pdf') n
  /\ forall i, (1 <= i <= Nat.min (numPages pdf) n)%nat ->
               getPage pdf i = getPage pdf' i.

(** * The service call ([generateMindMap])

    The call to the model and [JSON.parse] are outside the program: the
    outcome of the first is an input, the second is a parameter.  A
    response is seen through what the code reads of it. *)

(** [ai.models.generateContent(...)]: a rejection, or a response whose
    [text] may be absent. *)
Inductive ApiResult : Type :=
| ApiFailed (e : thrown)
| ApiResponse (text : option jstext).

(** The parsed value as the code reads it.  [d_nodes] is [None] when
    [data.nodes] is falsy or is not an array. *)
Record ResponseData : Type := {
  d_nodes : option (list RawNode);
  d_markdownSummary : jsval;
  d_researchReport : jsval
}.

(** [JSON.parse(text)]: a syntax error, the value [null] (of which reading
    [nodes] is a type error, with the message of the engine), or a value
    with properties. *)
Inductive ParseResult : Type :=
| ParseFailed (e : thrown)
| ParsedNull (typeError : string)
| Parsed (data : ResponseData).

(** What [generateMindMap] returns: the reconstructed tree, with the two
    texts assigned from the response. *)
Record Generated (S R : Type) : Type := {
  g_objects : S;
  g_root : R;
  g_markdownSummary : jsval;
  g_researchReport : jsval
}.

Arguments g_objects {S R} _.
Arguments g_root {S R} _.
Arguments g_markdownSummary {S R} _.
Arguments g_researchReport {S R} _.

(** The two assignments after the reconstruction. *)
Definition assignTexts {S R : Type} (treeData : MindMapData S R)
    (data : ResponseData) : Generated S R :=
  {| g_objects := objects treeData;
     g_root := root treeData;
     g_markdownSummary :=
       js_or (d_markdownSummary data) (JStr "Generating summary failed.");
     g_researchReport :=
       js_or (d_researchReport data) (JStr "Generating report failed.") |}.

(** The [catch] clause around the whole call. *)
Definition failedToGenerate (e : thrown) : string :=
  ("Failed to generate mind map: " ++ messageOr "Unknown AI error" e)%string.

(** ** Removing a Markdown fence (second version) *)

Fixpoint startsWith (prefix s : jstext) : bool :=
  match prefix, s with
  | [], _ => true
  | _ :: _, [] => false
  | a :: prefix', b :: s' => (a =? b) && startsWith prefix' s'
  end.

Definition endsWith (suffix s : jstext) : bool :=
  startsWith (rev suffix) (rev s).

(** [s.replace(/^prefix\s*/, '')] for a literal prefix. *)
Definition removeStart (prefix s : jstext) : jstext :=
  if startsWith prefix s
  then trimStart (skipn (length prefix) s)
  else s.

(** [s.replace(/\s*suffix$/, '')] for a literal suffix that does not
    start with white space: the leftmost match takes all the white space
    before the suffix. *)
Definition removeEnd (suffix s : jstext) : jstext :=
  if endsWith suffix s
  then trimEnd (firstn (length s - length suffix) s)
  else s.

Definition cleanText (text : jstext) : jstext :=
  removeEnd (units "```")
    (removeStart (units "```")
       (removeStart (units "```json") text)).

(** ** The version of [services/geminiService.ts] *)
Module AdoptFirstRootService.
Section Service.
Variable parse : jstext -> ParseResult.

(** The [try] block. *)
Definition attempt (api : ApiResult)
  : thrown + Generated AdoptFirstRoot.Store AdoptFirstRoot.Ref :=
  match api with
  | ApiFailed e => inl e
  | ApiResponse text =>
    match text with
    | None => inl (AnError "No response text from AI")
    | Some text =>
      if negb (nonEmpty text) then inl (AnError "No response text from AI")
      else
        match parse text with
        | ParseFailed e => inl e
        | ParsedNull typeError => inl (AnError typeError)
        | Parsed data =>
          match d_nodes data with
          | None =>
            inl (AnError "Invalid response structure: 'nodes' array missing")
          | Some nodes =>
            match AdoptFirstRoot.buildTreeFromFlatList nodes with
            | Thrown message => inl (AnError message)
            | Returned treeData => inr (assignTexts treeData data)
            end
          end
        end
    end
  end.

Definition generateMindMap (apiKey : jsval) (api : ApiResult)
  : outcome (Generated AdoptFirstRoot.Store AdoptFirstRoot.Ref) :=
  if negb (truthy apiKey) then
    Thrown "API_KEY is missing. Please ensure it is set in your environment."
  else
    match attempt api with
    | inr treeData => Returned treeData
    | inl error => Thrown (failedToGenerate error)
    end.

End Service.
End AdoptFirstRootService.

(** ** The version with the synthetic root *)
Module SyntheticRootService.
Section Service.
Variable parse : jstext -> ParseResult.

Definition attempt (api : ApiResult)
  : thrown + Generated SyntheticRoot.Store SyntheticRoot.Ref :=
  match api with
  | ApiFailed e => inl e
  | ApiResponse text =>
    match text with
    | None => inl (AnError "No response text from AI")
    | Some text =>
      if negb (nonEmpty text) then inl (AnError "No response text from AI")
      else
        match parse (cleanText text) with
        | ParseFailed _ =>
          inl (AnError "Failed to parse AI response as JSON.")
        | ParsedNull typeError => inl (AnError typeError)
        | Parsed data =>
          match d_nodes data with
          | None =>
            inl (AnError "Invalid response structure: 'nodes' array missing")
          | Some nodes =>
            match SyntheticRoot.buildTreeFromFlatList nodes with
            | Thrown message => inl (AnError message)
            | Returned treeData => inr (assignTexts treeData data)
            end
          end
        end
    end
  end.

Definition generateMindMap (apiKey : jsval) (api : ApiResult)
  : outcome (Generated SyntheticRoot.Store SyntheticRoot.Ref) :=
  if negb (truthy apiKey) then
    Thrown "API_KEY is missing. Please ensure it is set in your environment."
  else
    match attempt api with
    | inr treeData => Returned treeData
    | inl error => Thrown (failedToGenerate error)
    end.

End Service.
End SyntheticRootService.

(** * The outline ([OutlineView])

    What is rendered for a node: one block, keyed by the node's id, made
    of the node's own row followed by the blocks of its children.  Of a
    row the model keeps what depends on the node or on the depth; the
    fixed class names and icons are left out.  [children] is a list here
    too: every tree the outline is given comes from the reconstruction,
    which gives every node its array. *)

Record OutlineRow : Type := {
  marginLeft : Z;                       (* in pixels *)
  heading : bool;                       (* the styles and icon of depth 0 *)
  shownLabel : string;
  shownPage : Z;
  shownSummary : option string;         (* the paragraph, when rendered *)
  locate : bool;                        (* the line offering to locate *)
  onClick : Z * option string           (* what [onNodeClick] receives *)
}.

Inductive Element : Type :=
| Block (key : string) (row : OutlineRow) (inner : list Element).

(** [node.quote && ...]. *)
Definition truthyQuote (quote : option string) : bool :=
  match quote with
  | Some s => negb (String.eqb s "")
  | None => false
  end.

(** ** First version *)
Module Outline.

Fixpoint renderNode (node : MindMapNode) (depth : nat) : Element :=
  Block (id node)
    {| marginLeft := Z.of_nat depth * 16;
       heading := (depth =? 0)%nat;
       shownLabel := label node;
       shownPage := pageNumber node;
       shownSummary := Some (summary node);
       locate := truthyQuote (quote node);
       onClick := (pageNumber node, quote node) |}
    (map (fun child => renderNode child (S depth)) (children node)).

Definition OutlineView (root : MindMapNode) : Element :=
  renderNode root 0.

End Outline.

(** ** Second version, which knows the synthetic root *)
Inductive OutlineBody : Type :=
| Blocks (blocks : list Element)
| Placeholder (text : string).

Module OutlineSynthetic.

Fixpoint renderNode (node : MindMapNode) (depth : nat) : Element :=
  Block (id node)
    {| marginLeft := Z.of_nat depth * 20;
       heading := (depth =? 0)%nat;
       shownLabel := label node;
       shownPage := pageNumber node;
       shownSummary :=
         if negb (String.eqb (summary node) "")
            && negb (String.eqb (summary node) (label node))
         then Some (summary node) else None;
       locate := truthyQuote (quote node);
       onClick := (pageNumber node, quote node) |}
    (map (fun child => renderNode child (S depth)) (children node)).

Definition OutlineView (root : MindMapNode) : OutlineBody :=
  let isSyntheticRoot := String.eqb (id root) "root-synthetic" in
  let nodesToRender := if isSyntheticRoot then children root else [root] in
  if (0 <? length nodesToRender)%nat
  then Blocks (map (fun node => renderNode node 0) nodesToRender)
  else Placeholder "No structure extracted.".

End OutlineSynthetic.

(** ** Reference definitions on what is rendered *)

(** The rows of a block in document order. *)
Fixpoint rowsOf (e : Element) : list OutlineRow :=
  match e with
  | Block _ row inner => row :: flat_map rowsOf inner
  end.

Definition bodyRows (b : OutlineBody) : list OutlineRow :=
  match b with
  | Blocks blocks => flat_map rowsOf blocks
  | Placeholder _ => []
  end.

(** What a row shows of its node, and what a click on it reports. *)
Definition rowShows (r : OutlineRow) : string * Z * (Z * option string) :=
  (shownLabel r, shownPage r, onClick r).

Definition nodeShows (n : MindMapNode) : string * Z * (Z * option string) :=
  (label n, pageNumber n, (pageNumber n, quote n)).
(** * Proofs: layout *)

(** Induction over the tree with the hypothesis on every child. *)
Lemma MindMapNode_Forall_ind (P : MindMapNode -> Prop) :
  (forall i l s q p cs w h, Forall P cs -> P (mkNode i l s q p cs w h)) ->
  forall t, P t.
Proof.
  intros step.
  fix IH 1.
  intros [i l s q p cs w h].
  apply step.
  induction cs as [|c cs IHcs]; constructor.
  - apply IH.
  - exact IHcs.
Qed.

Lemma preorder_eq node :
  preorder node = node :: flat_map preorder (children node).
Proof.
  destruct node; reflexivity.
Qed.


Lemma sumZ_app l1 l2 : sumZ (l1 ++ l2) = sumZ l1 + sumZ l2.
Proof. unfold sumZ. induction l1; simpl; lia. Qed.





Lemma pushEdge_app options parentId node edges :
  pushEdge options parentId node edges
  = edges ++ pushEdge options parentId node [].
Proof.
  unfold pushEdge. destruct parentId as [p|]; [|now rewrite app_nil_r].
  destruct (truthyId (Some p)); [reflexivity|now rewrite app_nil_r].
Qed.

(** With non-empty parent ids the pushed edges are the expected links. *)
Lemma edgesOf_links options t :
  parentIdsOk t = true ->
  forall p, p <> "" ->
  edgesOf options (Some p) t = mkEdge options p t :: linksOf options t.
Proof.
  induction t as [i l s q pg cs w h IH] using MindMapNode_Forall_ind.
  intros Hok p Hp.
  cbn [edgesOf linksOf children id]. unfold pushEdge, truthyId.
  destruct (String.eqb_spec p ""); [contradiction|]. cbn [negb app].
  f_equal.
  unfold parentIdsOk in Hok. rewrite preorder_eq in Hok.
  cbn [forallb children] in Hok. apply andb_prop in Hok as [Hroot Hsub].
  destruct cs as [|c cs]; [reflexivity|].
  unfold parentIdOk in Hroot. cbn [children id] in Hroot.
  destruct (String.eqb_spec i ""); [discriminate|].
  revert Hsub. generalize (c :: cs) IH. clear - n0.
  induction 1 as [|c cs Hc _ IHcs]; intros Hsub; [reflexivity|].
  cbn [flat_map] in *. rewrite forallb_app in Hsub.
  apply andb_prop in Hsub as [H1 H2].
  rewrite (Hc H1 i n0), (IHcs H2). reflexivity.
Qed.

Lemma edgesOf_root options t :
  parentIdsOk t = true -> edgesOf options None t = linksOf options t.
Proof.
  destruct t as [i l s q pg cs w h]. intros Hok.
  cbn [edgesOf linksOf children id pushEdge app].
  unfold parentIdsOk in Hok. rewrite preorder_eq in Hok.
  cbn [forallb children] in Hok. apply andb_prop in Hok as [Hroot Hsub].
  destruct cs as [|c cs]; [reflexivity|].
  unfold parentIdOk in Hroot. cbn [children id] in Hroot.
  destruct (String.eqb_spec i ""); [discriminate|].
  revert Hsub. generalize (c :: cs). clear - n.
  induction l as [|c cs IHcs]; intros Hsub; [reflexivity|].
  cbn [flat_map] in *. rewrite forallb_app in Hsub.
  apply andb_prop in Hsub as [H1 H2].
  rewrite (edgesOf_links options c H1 i n), (IHcs H2). reflexivity.
Qed.

Lemma linksOf_targets options t :
  map e_target (linksOf options t) = map id (flat_map preorder (children t)).
Proof.
  induction t as [i l s q pg cs w h IH] using MindMapNode_Forall_ind.
  cbn [linksOf children id].
  induction IH as [|c cs Hc _ IHcs]; [reflexivity|].
  cbn [flat_map]. rewrite !map_app, <- IHcs. cbn [map app].
  rewrite Hc, (preorder_eq c). reflexivity.
Qed.

Lemma linksOf_length options t :
  length (linksOf options t) = (nodeCount t - 1)%nat.
Proof.
  unfold nodeCount. rewrite preorder_eq. cbn [length].
  rewrite Nat.sub_succ, Nat.sub_0_r.
  rewrite <- (length_map e_target), linksOf_targets. apply length_map.
Qed.

(** ** Top-down layout *)

Module TopDownFacts.
Import TopDown.

(** The loop adds the widths of the children it visits, and one spacing
    after each of them but the last child of the node. *)
Lemma td_sizeEach_spec calc len cs :
  Forall (fun c => calc c = (sized c, footprint c)) cs ->
  forall index total,
    index + Z.of_nat (length cs) = len ->
    sizeEach calc len cs index total =
      (map sized cs,
       total + sumZ (map footprint cs)
       + match cs with
         | [] => 0
         | _ => (Z.of_nat (length cs) - 1) * X_SPACING
         end).
Proof.
  induction 1 as [|c cs Hc Hcs IH]; intros index total Hlen.
  - simpl. f_equal. lia.
  - cbn [sizeEach]. rewrite Hc.
    rewrite IH by (cbn [length] in Hlen; lia).
    cbn [map sumZ fold_right length]. f_equal.
    destruct cs as [|c' cs'].
    + cbn [length] in *.
      assert ((index <? len - 1) = false) as -> by (apply Z.ltb_ge; lia).
      simpl. lia.
    + assert ((index <? len - 1) = true) as ->
        by (apply Z.ltb_lt; cbn [length] in *; lia).
      cbn [length map sumZ fold_right] in *. lia.
Qed.

Lemma td_calculateSubtreeSize_eq t :
  calculateSubtreeSize t = (sized t, footprint t).
Proof.
  induction t as [i l s q p cs w h IH] using MindMapNode_Forall_ind.
  destruct cs as [|c cs]; [reflexivity|].
  cbn [calculateSubtreeSize children].
  rewrite (td_sizeEach_spec _ _ _ IH) by lia.
  cbn [sized footprint children]. unfold setWidth; cbn.
  f_equal; f_equal; f_equal; lia.
Qed.

Lemma td_footprint_lower t : NODE_WIDTH <= footprint t.
Proof. destruct t as [i l s q p [|c cs] w h]; cbn; [|apply Z.le_max_l]; lia. Qed.

Lemma td_sum_footprint_lower cs :
  Z.of_nat (length cs) * NODE_WIDTH <= sumZ (map footprint cs).
Proof.
  induction cs as [|c cs IH]; [simpl; lia|].
  cbn [map sumZ fold_right length].
  pose proof (td_footprint_lower c). fold (sumZ (map footprint cs)). lia.
Qed.

(** For a node with children the [max] is the children's total. *)
Lemma td_footprint_internal t :
  children t <> [] ->
  footprint t = sumZ (map footprint (children t))
                + (Z.of_nat (length (children t)) - 1) * X_SPACING.
Proof.
  destruct t as [i l s q p [|c cs] w h]; [cbn; congruence|]. intros _.
  cbn [footprint children].
  pose proof (td_sum_footprint_lower (c :: cs)) as H.
  cbn [length] in *. unfold NODE_WIDTH, X_SPACING in *. lia.
Qed.


Lemma td_sized_width t : width (sized t) = Some (footprint t).
Proof. destruct t; reflexivity. Qed.

Lemma td_sized_children t : children (sized t) = map sized (children t).
Proof. destruct t; reflexivity. Qed.



(** *** Position assignment *)

Lemma td_placeEach_spec options (y : num) (pid : string) assign cs :
  Forall (fun c => forall cx ns es,
            assign c cx ns es
            = (ns ++ map (placed options) (frames c cx y),
               es ++ edgesOf options (Some pid) c)) cs ->
  forall cx ns es,
    placeEach assign cs cx ns es
    = (ns ++ map (placed options)
               (framesEach (fun c cx => frames c cx y) cs cx),
       es ++ flat_map (edgesOf options (Some pid)) cs).
Proof.
  induction 1 as [|c cs Hc _ IH]; intros cx ns es.
  - cbn. now rewrite !app_nil_r.
  - cbn [placeEach framesEach flat_map]. rewrite Hc, IH.
    rewrite map_app, !app_assoc. reflexivity.
Qed.

(** What an invocation appends to the two arrays. *)
Lemma td_assignPositions_spec options t :
  forall x y ns es pid,
    assignPositions t x y ns es options pid
    = (ns ++ map (placed options) (frames t x y),
       es ++ edgesOf options pid t).
Proof.
  induction t as [i l s q pg cs w h IH] using MindMapNode_Forall_ind.
  intros x y ns es pid.
  cbn [assignPositions frames edgesOf children id width map].
  rewrite (pushEdge_app options pid _ es).
  destruct cs as [|c cs].
  - cbn. now rewrite !app_nil_r.
  - rewrite (td_placeEach_spec options
               (y + Some NODE_HEIGHT + Some Y_SPACING)%num i).
    + rewrite <- !app_assoc. reflexivity.
    + revert IH. apply Forall_impl. intros a Ha cx ns' es'. apply Ha.
Qed.

Lemma td_frames_unfold t x y :
  frames t x y
  = (t, x, y)
      :: flat_map (fun f => frames (frameNode f) (frameX f) (frameY f))
           (childFrames (t, x, y)).
Proof.
  destruct t as [i l s q pg cs w h]. cbn [frames children].
  f_equal. unfold childFrames. cbn [frameNode frameX frameY fst snd children].
  generalize (y + Some NODE_HEIGHT + Some Y_SPACING)%num as y'. intros y'.
  revert x. induction cs as [|c cs IH]; intros x; [reflexivity|].
  cbn [framesEach childFramesFrom flat_map frameNode frameX frameY fst snd].
  f_equal. apply IH.
Qed.

Lemma td_childFramesFrom_sized cs : forall x y,
  Forall (fun f => exists c x', In c cs /\ x <= x' /\
                     f = (sized c, Some x', Some y))
         (childFramesFrom (map sized cs) (Some x) (Some y)).
Proof.
  induction cs as [|c cs IH]; intros x y; [constructor|].
  cbn [map childFramesFrom]. constructor.
  - exists c, x. split; [now left|]. split; [lia|reflexivity].
  - rewrite td_sized_width. cbn.
    pose proof (td_footprint_lower c). unfold NODE_WIDTH, X_SPACING in *.
    specialize (IH (x + footprint c + 30) y).
    revert IH. apply Forall_impl. intros f (c' & x' & Hin & Hle & ->).
    exists c', x'. split; [now right|]. split; [lia|reflexivity].
Qed.

Lemma td_frames_sized t : forall x y,
  Forall sizedFrame (frames (sized t) (Some x) (Some y)).
Proof.
  induction t as [i l s q pg cs w h IH] using MindMapNode_Forall_ind.
  intros x y. rewrite td_frames_unfold. constructor.
  - now exists (mkNode i l s q pg cs w h), x, y.
  - unfold childFrames.
    cbn [frameNode frameX frameY fst snd]. rewrite td_sized_children.
    cbn [children nadd nlift2].
    pose proof (td_childFramesFrom_sized cs x (y + NODE_HEIGHT + Y_SPACING)) as H.
    induction H as [|f fs (c & x' & Hin & _ & ->) _ IHfs]; [constructor|].
    cbn [flat_map]. apply Forall_app. split; [|exact IHfs].
    cbn [frameNode frameX frameY fst snd].
    rewrite Forall_forall in IH. now apply IH.
Qed.

Lemma td_childFrames_apart f :
  sizedFrame f -> siblingsApart width frameX (childFrames f).
Proof.
  intros (t & x & y & ->). unfold childFrames, siblingsApart.
  cbn [frameNode frameX frameY fst snd]. rewrite td_sized_children.
  cbn [nadd nlift2].
  generalize (y + NODE_HEIGHT + Y_SPACING) as y'. intros y'.
  generalize (children t) as cs. intros cs. revert x.
  induction cs as [|c cs IH]; intros x; [constructor|].
  cbn [map childFramesFrom]. rewrite td_sized_width. cbn [nadd nlift2].
  constructor; [|apply IH].
  pose proof (td_childFramesFrom_sized cs (x + footprint c + X_SPACING) y') as H.
  revert H. apply Forall_impl. intros g (c' & x' & _ & Hle & ->).
  unfold span, apart. cbn [frameNode frameX fst snd].
  rewrite !td_sized_width.
  pose proof (td_footprint_lower c). pose proof (td_footprint_lower c').
  unfold NODE_WIDTH, X_SPACING in *. lia.
Qed.



Lemma td_childFrames_nodes cs : forall x y g,
  In g (childFramesFrom cs x y) -> In (frameNode g) cs.
Proof.
  induction cs as [|c cs IH]; intros x y g; cbn [childFramesFrom]; [tauto|].
  intros [<-|H]; [now left|right]. eapply IH; eassumption.
Qed.

Lemma td_frames_head t x y : In (t, x, y) (frames t x y).
Proof. rewrite td_frames_unfold. now left. Qed.

(** The frames of the recursive calls of a frame are frames too. *)
Lemma td_frames_closed t : forall x y f,
  In f (frames t x y) -> incl (childFrames f) (frames t x y).
Proof.
  induction t as [i l s q pg cs w h IH] using MindMapNode_Forall_ind.
  intros x y f Hf g Hg. rewrite td_frames_unfold in Hf |- *.
  right. apply in_flat_map. destruct Hf as [<-|Hf].
  - exists g. split; [exact Hg|]. destruct g as [[c cx] cy].
    apply td_frames_head.
  - apply in_flat_map in Hf as (k & Hk & Hf). exists k. split; [exact Hk|].
    rewrite Forall_forall in IH.
    apply (IH (frameNode k)) with (f := f); [|exact Hf|exact Hg].
    unfold childFrames in Hk. cbn [frameNode fst children] in Hk.
    eapply td_childFrames_nodes; eassumption.
Qed.

Lemma td_frames_traced options t x y :
  tracedBy (placed options) childFrames
    (fst (assignPositions t x y [] [] options None)) (frames t x y).
Proof.
  split.
  - now rewrite td_assignPositions_spec.
  - apply Forall_forall. intros f Hf. now apply td_frames_closed.
Qed.

End TopDownFacts.

(** ** Left-to-right layout *)

Module LeftRightFacts.
Import LeftRight.

(** The loop adds the heights of the children it visits, and one spacing
    after each of them but the last child of the node. *)
Lemma lr_sizeEach_spec calc len cs :
  Forall (fun c => calc c = (sized c, footprint c)) cs ->
  forall index total,
    index + Z.of_nat (length cs) = len ->
    sizeEach calc len cs index total =
      (map sized cs,
       total + sumZ (map footprint cs)
       + match cs with
         | [] => 0
         | _ => (Z.of_nat (length cs) - 1) * NODE_SPACING
         end).
Proof.
  induction 1 as [|c cs Hc Hcs IH]; intros index total Hlen.
  - simpl. f_equal. lia.
  - cbn [sizeEach]. rewrite Hc.
    rewrite IH by (cbn [length] in Hlen; lia).
    cbn [map sumZ fold_right length]. f_equal.
    destruct cs as [|c' cs'].
    + cbn [length] in *.
      assert ((index <? len - 1) = false) as -> by (apply Z.ltb_ge; lia).
      simpl. lia.
    + assert ((index <? len - 1) = true) as ->
        by (apply Z.ltb_lt; cbn [length] in *; lia).
      cbn [length map sumZ fold_right] in *. lia.
Qed.

Lemma lr_calculateSubtreeHeight_eq t :
  calculateSubtreeHeight t = (sized t, footprint t).
Proof.
  induction t as [i l s q p cs w h IH] using MindMapNode_Forall_ind.
  destruct cs as [|c cs]; [reflexivity|].
  cbn [calculateSubtreeHeight children].
  rewrite (lr_sizeEach_spec _ _ _ IH) by lia.
  cbn [sized footprint children]. unfold setHeight; cbn.
  f_equal; f_equal; f_equal; lia.
Qed.

Lemma lr_footprint_lower t : NODE_HEIGHT <= footprint t.
Proof. destruct t as [i l s q p [|c cs] w h]; cbn; [|apply Z.le_max_l]; lia. Qed.

Lemma lr_sum_footprint_lower cs :
  Z.of_nat (length cs) * NODE_HEIGHT <= sumZ (map footprint cs).
Proof.
  induction cs as [|c cs IH]; [simpl; lia|].
  cbn [map sumZ fold_right length].
  pose proof (lr_footprint_lower c). fold (sumZ (map footprint cs)). lia.
Qed.

(** For a node with children the [max] is the children's total. *)
Lemma lr_footprint_internal t :
  children t <> [] ->
  footprint t = sumZ (map footprint (children t))
                + (Z.of_nat (length (children t)) - 1) * NODE_SPACING.
Proof.
  destruct t as [i l s q p [|c cs] w h]; [cbn; congruence|]. intros _.
  cbn [footprint children].
  pose proof (lr_sum_footprint_lower (c :: cs)) as H.
  cbn [length] in *. unfold NODE_HEIGHT, NODE_SPACING in *. lia.
Qed.


Lemma lr_sized_height t : height (sized t) = Some (footprint t).
Proof. destruct t; reflexivity. Qed.

Lemma lr_sized_children t : children (sized t) = map sized (children t).
Proof. destruct t; reflexivity. Qed.



(** *** Position assignment *)

Lemma lr_stack_fold cs : forall acc,
  fold_left (fun a c => a + orZero (height c)) (map sized cs) acc
  = acc + sumZ (map footprint cs).
Proof.
  induction cs as [|c cs IH]; intros acc; [cbn; lia|].
  cbn [map fold_left]. rewrite IH, lr_sized_height.
  cbn [orZero map sumZ fold_right]. fold (sumZ (map footprint cs)). lia.
Qed.

(** On a sized tree the children's stack is as high as the node's
    footprint, so the block of the children starts at the node's cursor. *)
Lemma lr_childStart_sized t y :
  children t <> [] -> childStart (sized t) (Some y) = Some y.
Proof.
  intros Hne. unfold childStart, childrenStackHeight.
  rewrite lr_sized_children, lr_sized_height, lr_stack_fold, length_map.
  rewrite (lr_footprint_internal t Hne). cbn [nsub nlift2 nhalf option_map nadd].
  f_equal.
  replace (sumZ (map footprint (children t)) +
           (Z.of_nat (length (children t)) - 1) * NODE_SPACING -
           (0 + sumZ (map footprint (children t)) +
            (Z.of_nat (length (children t)) - 1) * NODE_SPACING)) with 0 by lia.
  change (0 / 2) with 0. lia.
Qed.

Lemma lr_placeEach_spec options (x : num) (pid : string) assign cs :
  Forall (fun c => forall cy ns es,
            assign c cy ns es
            = (ns ++ map (placed options) (frames c x cy),
               es ++ edgesOf options (Some pid) c)) cs ->
  forall cy ns es,
    placeEach assign cs cy ns es
    = (ns ++ map (placed options)
               (framesEach (fun c cy => frames c x cy) cs cy),
       es ++ flat_map (edgesOf options (Some pid)) cs).
Proof.
  induction 1 as [|c cs Hc _ IH]; intros cy ns es.
  - cbn. now rewrite !app_nil_r.
  - cbn [placeEach framesEach flat_map]. rewrite Hc, IH.
    rewrite map_app, !app_assoc. reflexivity.
Qed.

(** What an invocation appends to the two arrays. *)
Lemma lr_assignPositions_spec options t :
  forall x y ns es pid,
    assignPositions t x y ns es options pid
    = (ns ++ map (placed options) (frames t x y),
       es ++ edgesOf options pid t).
Proof.
  induction t as [i l s q pg cs w h IH] using MindMapNode_Forall_ind.
  intros x y ns es pid.
  cbn [assignPositions frames edgesOf children id height map].
  rewrite (pushEdge_app options pid _ es).
  destruct cs as [|c cs].
  - cbn. now rewrite !app_nil_r.
  - rewrite (lr_placeEach_spec options
               (x + Some NODE_WIDTH + Some RANK_SPACING)%num i).
    + rewrite <- !app_assoc. reflexivity.
    + revert IH. apply Forall_impl. intros a Ha cy ns' es'. apply Ha.
Qed.

Lemma lr_frames_unfold t x y :
  frames t x y
  = (t, x, y)
      :: flat_map (fun f => frames (frameNode f) (frameX f) (frameY f))
           (childFrames (t, x, y)).
Proof.
  destruct t as [i l s q pg cs w h]. cbn [frames children].
  f_equal. unfold childFrames. cbn [frameNode frameX frameY fst snd children].
  generalize (childStart (mkNode i l s q pg cs w h) y) as y'. intros y'.
  generalize (x + Some NODE_WIDTH + Some RANK_SPACING)%num as x'. intros x'.
  revert y'. induction cs as [|c cs IH]; intros y'; [reflexivity|].
  cbn [framesEach childFramesFrom flat_map frameNode frameX frameY fst snd].
  f_equal. apply IH.
Qed.

Lemma lr_childFramesFrom_sized cs : forall x y,
  Forall (fun f => exists c y', In c cs /\ y <= y' /\
                     f = (sized c, Some x, Some y'))
         (childFramesFrom (map sized cs) (Some x) (Some y)).
Proof.
  induction cs as [|c cs IH]; intros x y; [constructor|].
  cbn [map childFramesFrom]. constructor.
  - exists c, y. split; [now left|]. split; [lia|reflexivity].
  - rewrite lr_sized_height. cbn.
    pose proof (lr_footprint_lower c). unfold NODE_HEIGHT, NODE_SPACING in *.
    specialize (IH x (y + footprint c + 24)).
    revert IH. apply Forall_impl. intros f (c' & y' & Hin & Hle & ->).
    exists c', y'. split; [now right|]. split; [lia|reflexivity].
Qed.

Lemma lr_frames_sized t : forall x y,
  Forall sizedFrame (frames (sized t) (Some x) (Some y)).
Proof.
  induction t as [i l s q pg cs w h IH] using MindMapNode_Forall_ind.
  intros x y. rewrite lr_frames_unfold. constructor.
  - now exists (mkNode i l s q pg cs w h), x, y.
  - unfold childFrames.
    cbn [frameNode frameX frameY fst snd].
    destruct cs as [|c0 cs0]; [constructor|].
    rewrite lr_childStart_sized by discriminate.
    rewrite lr_sized_children.
    cbn [children nadd nlift2].
    pose proof (lr_childFramesFrom_sized (c0 :: cs0)
                  (x + NODE_WIDTH + RANK_SPACING) y) as H.
    induction H as [|f fs (c & x' & Hin & _ & ->) _ IHfs]; [constructor|].
    cbn [flat_map]. apply Forall_app. split; [|exact IHfs].
    cbn [frameNode frameX frameY fst snd].
    rewrite Forall_forall in IH. now apply IH.
Qed.

Lemma lr_childFrames_apart f :
  sizedFrame f -> siblingsApart height frameY (childFrames f).
Proof.
  intros (t & x & y & ->). unfold childFrames, siblingsApart.
  cbn [frameNode frameX frameY fst snd].
  destruct (children t) as [|c0 cs0] eqn:Hcs.
  { rewrite lr_sized_children, Hcs. constructor. }
  rewrite lr_childStart_sized by (rewrite Hcs; discriminate).
  rewrite lr_sized_children, Hcs.
  cbn [nadd nlift2].
  generalize (x + NODE_WIDTH + RANK_SPACING) as x'. intros x'.
  generalize (c0 :: cs0) as cs. intros cs. revert y.
  induction cs as [|c cs IH]; intros y; [constructor|].
  cbn [map childFramesFrom]. rewrite lr_sized_height. cbn [nadd nlift2].
  constructor; [|apply IH].
  pose proof (lr_childFramesFrom_sized cs x' (y + footprint c + NODE_SPACING))
    as H.
  revert H. apply Forall_impl. intros g (c' & y' & _ & Hle & ->).
  unfold span, apart. cbn [frameNode frameY fst snd].
  rewrite !lr_sized_height.
  pose proof (lr_footprint_lower c). pose proof (lr_footprint_lower c').
  unfold NODE_HEIGHT, NODE_SPACING in *. lia.
Qed.



Lemma lr_childFrames_nodes cs : forall x y g,
  In g (childFramesFrom cs x y) -> In (frameNode g) cs.
Proof.
  induction cs as [|c cs IH]; intros x y g; cbn [childFramesFrom]; [tauto|].
  intros [<-|H]; [now left|right]. eapply IH; eassumption.
Qed.

Lemma lr_frames_head t x y : In (t, x, y) (frames t x y).
Proof. rewrite lr_frames_unfold. now left. Qed.

(** The frames of the recursive calls of a frame are frames too. *)
Lemma lr_frames_closed t : forall x y f,
  In f (frames t x y) -> incl (childFrames f) (frames t x y).
Proof.
  induction t as [i l s q pg cs w h IH] using MindMapNode_Forall_ind.
  intros x y f Hf g Hg. rewrite lr_frames_unfold in Hf |- *.
  right. apply in_flat_map. destruct Hf as [<-|Hf].
  - exists g. split; [exact Hg|]. destruct g as [[c cx] cy].
    apply lr_frames_head.
  - apply in_flat_map in Hf as (k & Hk & Hf). exists k. split; [exact Hk|].
    rewrite Forall_forall in IH.
    apply (IH (frameNode k)) with (f := f); [|exact Hf|exact Hg].
    unfold childFrames in Hk. cbn [frameNode fst children] in Hk.
    eapply lr_childFrames_nodes; eassumption.
Qed.

Lemma lr_frames_traced options t x y :
  tracedBy (placed options) childFrames
    (fst (assignPositions t x y [] [] options None)) (frames t x y).
Proof.
  split.
  - now rewrite lr_assignPositions_spec.
  - apply Forall_forall. intros f Hf. now apply lr_frames_closed.
Qed.

End LeftRightFacts.

(** ** Layout: the properties of the specification *)

(** The scenario of the specification, laid out left to right: ids with
    the pushed coordinates. *)
Example scenario_left_right_layout :
  map (fun n => (n_id n, n_x n, n_y n))
      (fst (LeftRight.layout (Some scenario)
              {| edgeType := EdgeSmoothstep; fontSize := FontMedium |}))
  = [("root", Some 0, Some 164);
     ("A", Some 420, Some 82);
     ("A1", Some 840, Some 0);
     ("A2", Some 840, Some 164);
     ("B", Some 420, Some 328)].
Proof. reflexivity. Qed.

Example scenario_top_down_layout :
  map (fun n => (n_id n, n_x n, n_y n))
      (fst (TopDown.layout (Some scenario)
              {| edgeType := EdgeSmoothstep; fontSize := FontMedium |}))
  = [("root", Some 290, Some 0);
     ("A", Some 145, Some 220);
     ("A1", Some 0, Some 440);
     ("A2", Some 290, Some 440);
     ("B", Some 580, Some 220)].
Proof. reflexivity. Qed.

Example scenario_edges :
  map (fun e => (e_id e, e_source e, e_target e))
      (snd (LeftRight.layout (Some scenario)
              {| edgeType := EdgeSmoothstep; fontSize := FontMedium |}))
  = [("root-A", "root", "A"); ("A-A1", "A", "A1"); ("A-A2", "A", "A2");
     ("root-B", "root", "B")].
Proof. reflexivity. Qed.


(** C3.  For every tree whose footprints have been computed, the frames of
    the position assignment (one per node, each giving the record pushed
    for that node) are such that the spans allocated to the children of
    any node, namely the intervals that start at a child's cursor and are
    as long as its footprint, lie one after the other along the secondary
    axis without overlap.  Top-down layout: spans along x; left-to-right
    layout: spans along y. *)
Theorem sibling_spans_do_not_overlap :
  forall (t : MindMapNode) (options : MindMapOptions) (x y : Z),
    (let fs := TopDown.frames (fst (TopDown.calculateSubtreeSize t))
                 (Some x) (Some y) in
     tracedBy (TopDown.placed options) TopDown.childFrames
       (fst (TopDown.assignPositions (fst (TopDown.calculateSubtreeSize t))
               (Some x) (Some y) [] [] options None)) fs
     /\ Forall (fun f => siblingsApart width frameX (TopDown.childFrames f))
               fs)
    /\
    (let fs := LeftRight.frames (fst (LeftRight.calculateSubtreeHeight t))
                 (Some x) (Some y) in
     tracedBy (LeftRight.placed options) LeftRight.childFrames
       (fst (LeftRight.assignPositions
               (fst (LeftRight.calculateSubtreeHeight t))
               (Some x) (Some y) [] [] options None)) fs
     /\ Forall (fun f => siblingsApart height frameY (LeftRight.childFrames f))
               fs).
Proof.
  intros t options x y. split.
  - rewrite TopDownFacts.td_calculateSubtreeSize_eq. cbn [fst].
    split; [apply TopDownFacts.td_frames_traced|].
    pose proof (TopDownFacts.td_frames_sized t x y) as H.
    revert H. apply Forall_impl. apply TopDownFacts.td_childFrames_apart.
  - rewrite LeftRightFacts.lr_calculateSubtreeHeight_eq. cbn [fst].
    split; [apply LeftRightFacts.lr_frames_traced|].
    pose proof (LeftRightFacts.lr_frames_sized t x y) as H.
    revert H. apply Forall_impl. apply LeftRightFacts.lr_childFrames_apart.
Qed.


(** C5, as stated, fails: under a parent whose id is the empty string the
    test [if (parentId)] is false and no edge is pushed.  A root with the
    empty id and one child has two nodes and gets no edge, in both
    layouts. *)
Lemma no_edge_under_empty_parent_id :
  let t := mkNode "" "top" "" None 1 [leaf "c"] None None in
  let options := {| edgeType := EdgeSmoothstep; fontSize := FontMedium |} in
  ~ (length (snd (TopDown.assignPositions t (Some 0) (Some 0) [] []
                    options None))
     = (nodeCount t - 1)%nat)
  /\ ~ (length (snd (LeftRight.assignPositions t (Some 0) (Some 0) [] []
                       options None))
        = (nodeCount t - 1)%nat).
Proof. vm_compute. split; discriminate. Qed.

(** C5, amended.  For every tree in which every node that has children has
    a non-empty id, the position assigner (called on the root without a
    parent id) pushes exactly (node count - 1) edges: for every node other
    than the root, in pre-order, one edge from its parent's id to its own
    id; so the targets of the edges are the non-root nodes, each once. *)
Theorem edges_link_every_non_root_node :
  forall (t : MindMapNode) (options : MindMapOptions) (x y : num),
    parentIdsOk t = true ->
    (let es := snd (TopDown.assignPositions t x y [] [] options None) in
     es = linksOf options t
     /\ length es = (nodeCount t - 1)%nat
     /\ map e_target es = map id (tl (preorder t)))
    /\
    (let es := snd (LeftRight.assignPositions t x y [] [] options None) in
     es = linksOf options t
     /\ length es = (nodeCount t - 1)%nat
     /\ map e_target es = map id (tl (preorder t))).
Proof.
  intros t options x y Hok.
  assert (Hlinks : length (linksOf options t) = (nodeCount t - 1)%nat
                   /\ map e_target (linksOf options t)
                      = map id (tl (preorder t))).
  { split; [apply linksOf_length|].
    rewrite linksOf_targets, preorder_eq. reflexivity. }
  split.
  - rewrite TopDownFacts.td_assignPositions_spec. cbn [snd app].
    rewrite (edgesOf_root options t Hok). now split.
  - rewrite LeftRightFacts.lr_assignPositions_spec. cbn [snd app].
    rewrite (edgesOf_root options t Hok). now split.
Qed.

Lemma edges_link_every_non_root_node_witness :
  let options := {| edgeType := EdgeSmoothstep; fontSize := FontMedium |} in
  parentIdsOk scenario = true
  /\ length (snd (TopDown.assignPositions scenario (Some 0) (Some 0) [] []
                    options None)) = 4%nat.
Proof.
  intros options. split; [reflexivity|].
  exact (proj1 (proj2 (proj1
    (edges_link_every_non_root_node scenario options (Some 0) (Some 0)
       eq_refl)))).
Defined.

(** * Proofs: reconstruction *)

Lemma jsval_eqb_spec a b : reflect (a = b) (jsval_eqb a b).
Proof.
  destruct a as [| |x|x|x], b as [| |y|y|y]; cbn;
    try (constructor; congruence).
  - destruct (Bool.eqb_spec x y); constructor; congruence.
  - destruct (Z.eqb_spec x y); constructor; congruence.
  - destruct (String.eqb_spec x y); constructor; congruence.
Qed.

Lemma jsval_eqb_refl a : jsval_eqb a a = true.
Proof. now destruct (jsval_eqb_spec a a). Qed.

Lemma jsval_eq_dec (a b : jsval) : {a = b} + {a <> b}.
Proof. destruct (jsval_eqb_spec a b); [left|right]; assumption. Qed.

(** ** The insertion-ordered map *)

Section JsMapFacts.
Context {V : Type}.
Implicit Types (m : JsMap V) (k : jsval) (v : V).

Lemma map_get_in_keys m k : map_get m k <> None <-> In k (map_keys m).
Proof.
  induction m as [|[k' v'] m IH]; cbn.
  - split; [congruence|tauto].
  - destruct (jsval_eqb_spec k' k) as [->|Hne].
    + split; [now left|congruence].
    + rewrite IH. split; [now right|]. intros [H|H]; [contradiction|exact H].
Qed.

Lemma map_get_some_in_keys m k v : map_get m k = Some v -> In k (map_keys m).
Proof. intros H. apply map_get_in_keys. congruence. Qed.

Lemma map_get_none m k : map_get m k = None <-> ~ In k (map_keys m).
Proof.
  rewrite <- map_get_in_keys. destruct (map_get m k); split; try congruence.
  intros H. now contradiction H.
Qed.

Lemma map_has_in_keys m k : map_has m k = true <-> In k (map_keys m).
Proof.
  unfold map_has. rewrite <- map_get_in_keys.
  destruct (map_get m k); split; congruence.
Qed.

Lemma map_get_In m k v : map_get m k = Some v -> In (k, v) m.
Proof.
  induction m as [|[k' v'] m IH]; cbn; [congruence|].
  destruct (jsval_eqb_spec k' k) as [->|Hne].
  - intros [= ->]. now left.
  - intros H. right. now apply IH.
Qed.

Lemma map_set_keys m k v x :
  In x (map_keys (map_set m k v)) <-> x = k \/ In x (map_keys m).
Proof.
  induction m as [|[k' v'] m IH]; cbn.
  - intuition congruence.
  - destruct (jsval_eqb_spec k' k) as [->|Hne]; cbn.
    + intuition congruence.
    + rewrite IH. intuition congruence.
Qed.


Lemma map_set_Forall (P : jsval * V -> Prop) m k v :
  Forall P m -> P (k, v) -> Forall P (map_set m k v).
Proof.
  intros Hm Hv. induction Hm as [|[k' v'] m Hkv Hm IH]; cbn.
  - constructor; [apply Hv|constructor].
  - destruct (jsval_eqb_spec k' k) as [->|Hne]; constructor; auto.
Qed.

Lemma map_set_not_nil m k v : map_set m k v <> [].
Proof. destruct m as [|[k' v'] m]; cbn; [|destruct (jsval_eqb k' k)]; discriminate. Qed.

Lemma map_update_keys m k f : map_keys (map_update m k f) = map_keys m.
Proof.
  unfold map_keys.
  induction m as [|[k' v'] m IH]; cbn; [reflexivity|].
  destruct (jsval_eqb k' k); cbn; [reflexivity|]. now rewrite IH.
Qed.

Lemma map_update_get m k f k' :
  map_get (map_update m k f) k'
  = if jsval_eqb k k' then option_map f (map_get m k) else map_get m k'.
Proof.
  induction m as [|[k0 v0] m IH]; cbn.
  - now destruct (jsval_eqb k k').
  - destruct (jsval_eqb_spec k0 k) as [->|Hne]; cbn.
    + destruct (jsval_eqb_spec k k'); reflexivity.
    + destruct (jsval_eqb_spec k0 k') as [->|Hne'].
      * destruct (jsval_eqb_spec k k'); [congruence|reflexivity].
      * exact IH.
Qed.


End JsMapFacts.


(** ** Graph facts *)



Lemma reachable_not_child {R : Type} (lookup : R -> option (NodeObj R)) r n :
  (forall c, ~ child_of lookup r c) -> reachable lookup r n -> n = r.
Proof.
  intros Hleaf H. apply clos_rt_rt1n in H.
  destruct H as [|c n Hc _]; [reflexivity|]. now apply Hleaf in Hc.
Qed.

(** ** The version that adopts the first parentless record *)

Module AdoptFirstRootFacts.
Import AdoptFirstRoot.

(** *** First pass *)

Lemma afr_created_keys flat : forall (m : Store) x,
  In x (map_keys (fold_left create flat m))
  <-> In x (map_keys m) \/ In x (map raw_id flat).
Proof.
  induction flat as [|raw flat IH]; intros m x; cbn [fold_left map In].
  - tauto.
  - rewrite IH. unfold create at 1. rewrite map_set_keys. intuition congruence.
Qed.


Lemma afr_created_Forall (P : jsval * NodeObj Ref -> Prop) flat :
  (forall raw, P (raw_id raw, newNode raw)) ->
  forall (m : Store), Forall P m -> Forall P (fold_left create flat m).
Proof.
  intros Hnew. induction flat as [|raw flat IH]; intros m Hm; cbn [fold_left];
    [exact Hm|].
  apply IH. apply map_set_Forall; [exact Hm|]. apply Hnew.
Qed.

(** *** Second pass *)

Lemma afr_link_keys st raw : map_keys (fst (link st raw)) = map_keys (fst st).
Proof.
  destruct st as [m r]. unfold link.
  destruct (map_get m (raw_id raw)); [|reflexivity].
  destruct (truthy (parentOf raw)); [|reflexivity].
  destruct (map_get m (parentOf raw)); [|reflexivity].
  cbn [fst]. apply map_update_keys.
Qed.

Lemma afr_links_keys flat : forall st,
  map_keys (fst (fold_left link flat st)) = map_keys (fst st).
Proof.
  induction flat as [|raw flat IH]; intros st; cbn [fold_left]; [reflexivity|].
  now rewrite IH, afr_link_keys.
Qed.

Lemma afr_link_root st raw r :
  snd (link st raw) = Some r ->
  snd st = Some r \/ In r (map_keys (fst st)).
Proof.
  destruct st as [m r0]. unfold link.
  destruct (map_get m (raw_id raw)) eqn:Hget; [|now left].
  destruct (truthy (parentOf raw)).
  - destruct (map_get m (parentOf raw)); now left.
  - cbn [snd fst]. destruct r0 as [r0|]; [now left|].
    intros [= <-]. right. eapply map_get_some_in_keys; eassumption.
Qed.

Lemma afr_links_root flat : forall st,
  (forall r, snd st = Some r -> In r (map_keys (fst st))) ->
  forall r, snd (fold_left link flat st) = Some r ->
            In r (map_keys (fst (fold_left link flat st))).
Proof.
  induction flat as [|raw flat IH]; intros st Hst; cbn [fold_left];
    [exact Hst|].
  apply IH. intros r Hr. rewrite afr_link_keys.
  destruct (afr_link_root _ _ _ Hr) as [H|H]; [now apply Hst|exact H].
Qed.

(** A non-empty input always yields a root, and the root is one of the
    node objects. *)
Lemma afr_build_nonempty flat :
  flat <> [] ->
  exists d, buildTreeFromFlatList flat = Returned d
            /\ In (root d) (map_keys (objects d)).
Proof.
  intros Hne. unfold buildTreeFromFlatList.
  pose proof (afr_links_root flat (fold_left create flat [], None)) as Hroot.
  pose proof (afr_links_keys flat (fold_left create flat [], None)) as Hkeys.
  destruct (fold_left link flat (fold_left create flat [], None))
    as [m r] eqn:Hfold.
  cbn [fst snd] in *. destruct r as [r|].
  - eexists. split; [reflexivity|]. cbn [root objects].
    apply Hroot; [discriminate|reflexivity].
  - destruct flat as [|raw flat]; [congruence|].
    assert (Hin : In (raw_id raw) (map_keys m)).
    { rewrite Hkeys. apply afr_created_keys. right. now left. }
    destruct (map_keys m) as [|first ks] eqn:Hks; [contradiction|].
    eexists. split; [reflexivity|]. cbn [root objects]. rewrite Hks. now left.
Qed.


(** *** Where the children come from *)

Lemma afr_declares_app_l l1 l2 p c : declares l1 p c -> declares (l1 ++ l2) p c.
Proof.
  intros (raw & Hin & H). exists raw. split; [|exact H].
  apply in_or_app. now left.
Qed.

Lemma afr_link_child st raw p c :
  child_of (lookup (fst (link st raw))) p c ->
  child_of (lookup (fst st)) p c
  \/ (c = raw_id raw /\ p = parentOf raw /\ truthy p = true).
Proof.
  destruct st as [m r]. unfold link.
  destruct (map_get m (raw_id raw)); [|now left].
  destruct (truthy (parentOf raw)) eqn:Htruthy; [|now left].
  destruct (map_get m (parentOf raw)) as [parent|] eqn:Hparent; [|now left].
  cbn [fst]. unfold child_of, lookup. rewrite map_update_get.
  destruct (jsval_eqb_spec (parentOf raw) p) as [<-|Hne]; [|now left].
  rewrite Hparent. cbn [option_map pushTo o_children].
  intros Hin. apply in_app_or in Hin as [Hin|[<-|[]]]; [now left|].
  right. now repeat split.
Qed.

Lemma afr_links_child rest : forall seen st,
  (forall p c, child_of (lookup (fst st)) p c -> declares seen p c) ->
  forall p c,
    child_of (lookup (fst (fold_left link rest st))) p c ->
    declares (seen ++ rest) p c.
Proof.
  induction rest as [|raw rest IH]; intros seen st Hst p c; cbn [fold_left].
  - rewrite app_nil_r. apply Hst.
  - replace (seen ++ raw :: rest) with ((seen ++ [raw]) ++ rest)
      by (now rewrite <- app_assoc).
    apply IH. intros p' c' H.
    apply afr_link_child in H as [H|(-> & -> & Ht)].
    + apply afr_declares_app_l. now apply Hst.
    + exists raw. split; [apply in_or_app; right; now left|]. now repeat split.
Qed.

Lemma afr_created_no_children flat :
  Forall (fun kv : jsval * NodeObj Ref => o_children (snd kv) = [])
         (fold_left create flat []).
Proof. apply afr_created_Forall; [reflexivity|constructor]. Qed.

(** Every child link of the result was declared by a record. *)
Lemma afr_build_child_declared flat d :
  buildTreeFromFlatList flat = Returned d ->
  forall p c, child_of (lookup (objects d)) p c -> declares flat p c.
Proof.
  unfold buildTreeFromFlatList.
  pose proof (afr_links_child flat [] (fold_left create flat [], None)) as H.
  destruct (fold_left link flat (fold_left create flat [], None))
    as [m r] eqn:Hfold.
  cbn [fst app] in H.
  assert (Hd : objects d = m -> forall p c,
                 child_of (lookup (objects d)) p c -> declares flat p c).
  { intros -> p c. apply H. clear. intros p c. unfold child_of, lookup.
    destruct (map_get (fold_left create flat []) p) as [o|] eqn:Hget;
      [|contradiction].
    apply map_get_In in Hget.
    pose proof (afr_created_no_children flat) as Hall.
    rewrite Forall_forall in Hall. apply Hall in Hget. cbn in Hget.
    rewrite Hget. contradiction. }
  destruct r as [r|].
  - intros [= <-]. now apply Hd.
  - destruct (map_keys m); [discriminate|]. intros [= <-]. now apply Hd.
Qed.

(** *** Each reference is pushed at most once when ids do not repeat *)










End AdoptFirstRootFacts.

(** ** The version with a synthetic root *)

Module SyntheticRootFacts.
Import SyntheticRoot.

(** *** First pass *)

Lemma syn_created_keys flat : forall (m : JsMap (NodeObj Ref)) x,
  In x (map_keys (fold_left create flat m))
  <-> In x (map_keys m) \/ In x (map safeId flat).
Proof.
  induction flat as [|raw flat IH]; intros m x; cbn [fold_left map In].
  - tauto.
  - rewrite IH. unfold create at 1. rewrite map_set_keys. intuition congruence.
Qed.


Lemma syn_created_Forall (P : jsval * NodeObj Ref -> Prop) flat :
  (forall raw, P (safeId raw, newNode raw)) ->
  forall (m : JsMap (NodeObj Ref)),
    Forall P m -> Forall P (fold_left create flat m).
Proof.
  intros Hnew. induction flat as [|raw flat IH]; intros m Hm; cbn [fold_left];
    [exact Hm|].
  apply IH. apply map_set_Forall; [exact Hm|]. apply Hnew.
Qed.

Lemma syn_created_no_children flat :
  Forall (fun kv : jsval * NodeObj Ref => o_children (snd kv) = [])
         (fold_left create flat []).
Proof. apply syn_created_Forall; [reflexivity|constructor]. Qed.

(** *** Linking *)

Lemma syn_link_keys st raw :
  map_keys (nodeMap (link st raw)) = map_keys (nodeMap st).
Proof.
  unfold link. destruct (map_get (nodeMap st) (safeId raw)); [|reflexivity].
  destruct (truthy (parentOf raw) && map_has (nodeMap st) (parentOf raw));
    cbn [nodeMap]; [apply map_update_keys|reflexivity].
Qed.

Lemma syn_links_keys flat : forall st,
  map_keys (nodeMap (fold_left link flat st)) = map_keys (nodeMap st).
Proof.
  induction flat as [|raw flat IH]; intros st; cbn [fold_left]; [reflexivity|].
  now rewrite IH, syn_link_keys.
Qed.

(** The children of the synthetic root only grow. *)
Lemma syn_link_root_children st raw :
  exists more,
    o_children (syntheticRoot (link st raw))
    = o_children (syntheticRoot st) ++ more.
Proof.
  unfold link. destruct (map_get (nodeMap st) (safeId raw)).
  - destruct (truthy (parentOf raw) && map_has (nodeMap st) (parentOf raw));
      cbn [syntheticRoot pushTo o_children].
    + exists []. now rewrite app_nil_r.
    + now eexists.
  - exists []. now rewrite app_nil_r.
Qed.

Lemma syn_links_root_children flat : forall st,
  exists more,
    o_children (syntheticRoot (fold_left link flat st))
    = o_children (syntheticRoot st) ++ more.
Proof.
  induction flat as [|raw flat IH]; intros st; cbn [fold_left].
  - exists []. now rewrite app_nil_r.
  - destruct (IH (link st raw)) as [m2 H2].
    destruct (syn_link_root_children st raw) as [m1 H1].
    exists (m1 ++ m2). now rewrite H2, H1, app_assoc.
Qed.

Lemma syn_existsb_safeId flat p :
  existsb (fun r => jsval_eqb (safeId r) p) flat = true
  <-> In p (map safeId flat).
Proof.
  rewrite existsb_exists, in_map_iff. split; intros (r & H1 & H2).
  - exists r. split; [|exact H1]. now destruct (jsval_eqb_spec (safeId r) p).
  - exists r. split; [exact H2|]. rewrite H1. apply jsval_eqb_refl.
Qed.

(** A top-level record is pushed under the synthetic root. *)
Lemma syn_link_topLevel flat st raw :
  (forall k, In k (map_keys (nodeMap st)) <-> In k (map safeId flat)) ->
  In raw flat -> topLevel flat raw = true ->
  o_children (syntheticRoot (link st raw))
  = o_children (syntheticRoot st) ++ [RNode (safeId raw)].
Proof.
  intros Hkeys Hin Htop. unfold link.
  destruct (map_get (nodeMap st) (safeId raw)) eqn:Hget.
  - assert (Hguard : truthy (parentOf raw)
                     && map_has (nodeMap st) (parentOf raw) = false).
    { unfold topLevel in Htop. apply negb_true_iff in Htop.
      destruct (truthy (parentOf raw)); [|reflexivity]. cbn [andb] in *.
      destruct (map_has (nodeMap st) (parentOf raw)) eqn:Hhas; [|reflexivity].
      apply map_has_in_keys, Hkeys, syn_existsb_safeId in Hhas. congruence. }
    rewrite Hguard. reflexivity.
  - apply map_get_none in Hget. contradiction Hget. apply Hkeys.
    now apply in_map.
Qed.

Lemma syn_initial_keys flat k :
  In k (map_keys (nodeMap (initial flat))) <-> In k (map safeId flat).
Proof.
  unfold initial. cbn [nodeMap]. rewrite syn_created_keys. cbn. tauto.
Qed.

(** Orphan recovery: every top-level record, in particular one whose
    parent id is dangling, ends up among the children of the synthetic
    root once all records are linked. *)
Lemma syn_linked_topLevel flat raw :
  In raw flat -> topLevel flat raw = true ->
  In (RNode (safeId raw))
     (o_children (syntheticRoot (fold_left link flat (initial flat)))).
Proof.
  intros Hin Htop.
  destruct (in_split _ _ Hin) as (l1 & l2 & Hsplit).
  rewrite Hsplit at 1. rewrite fold_left_app. cbn [fold_left].
  destruct (syn_links_root_children l2 (link (fold_left link l1 (initial flat)) raw))
    as [more ->].
  apply in_or_app. left.
  rewrite (syn_link_topLevel flat); [|  |exact Hin|exact Htop].
  - apply in_or_app. right. now left.
  - intros k. rewrite syn_links_keys. apply syn_initial_keys.
Qed.

Lemma syn_fallback_children_kept st r :
  In r (o_children (syntheticRoot st)) ->
  fallback st = st.
Proof.
  intros Hin. unfold fallback.
  destruct (o_children (syntheticRoot st)); [contradiction|reflexivity].
Qed.

Lemma syn_build_topLevel flat raw :
  In raw flat -> topLevel flat raw = true ->
  exists d, buildTreeFromFlatList flat = Returned d
            /\ objects d = fold_left link flat (initial flat)
            /\ root d = RSynthetic
            /\ In (RNode (safeId raw))
                  (o_children (syntheticRoot (objects d))).
Proof.
  intros Hin Htop. pose proof (syn_linked_topLevel flat raw Hin Htop) as H.
  unfold buildTreeFromFlatList. eexists. split; [reflexivity|].
  cbn [objects root]. rewrite (syn_fallback_children_kept _ _ H). now repeat split.
Qed.

(** *** Where the children come from *)

Lemma syn_declaresRef_app_l l1 l2 p c :
  declaresRef l1 p c -> declaresRef (l1 ++ l2) p c.
Proof.
  destruct p as [|pk], c as [|ck]; cbn; try tauto.
  intros (raw & Hin & H). exists raw. split; [|exact H].
  apply in_or_app. now left.
Qed.

Lemma syn_link_child st raw p c :
  child_of (lookup (link st raw)) p c ->
  child_of (lookup st) p c
  \/ (c = RNode (safeId raw)
      /\ (p = RSynthetic
          \/ (p = RNode (parentOf raw) /\ truthy (parentOf raw) = true))).
Proof.
  unfold link. destruct (map_get (nodeMap st) (safeId raw)); [|now left].
  destruct (truthy (parentOf raw)) eqn:Htruthy; cbn [andb].
  - destruct (map_has (nodeMap st) (parentOf raw)) eqn:Hhas.
    + unfold child_of. destruct p as [|pk]; cbn [lookup nodeMap syntheticRoot];
        [now left|].
      rewrite map_update_get.
      destruct (jsval_eqb_spec (parentOf raw) pk) as [<-|Hne]; [|now left].
      destruct (map_get (nodeMap st) (parentOf raw)) as [parent|];
        cbn [option_map pushTo o_children]; [|now left].
      intros Hin. apply in_app_or in Hin as [Hin|[<-|[]]]; [now left|].
      right. split; [reflexivity|]. right. now split.
    + unfold child_of. destruct p as [|pk]; cbn [lookup nodeMap syntheticRoot];
        [|now left].
      cbn [pushTo o_children]. intros Hin.
      apply in_app_or in Hin as [Hin|[<-|[]]]; [now left|].
      right. split; [reflexivity|now left].
  - unfold child_of. destruct p as [|pk]; cbn [lookup nodeMap syntheticRoot];
      [|now left].
    cbn [pushTo o_children]. intros Hin.
    apply in_app_or in Hin as [Hin|[<-|[]]]; [now left|].
    right. split; [reflexivity|now left].
Qed.

Lemma syn_links_child rest : forall seen st,
  (forall p c, child_of (lookup st) p c -> declaresRef seen p c) ->
  forall p c,
    child_of (lookup (fold_left link rest st)) p c ->
    declaresRef (seen ++ rest) p c.
Proof.
  induction rest as [|raw rest IH]; intros seen st Hst p c; cbn [fold_left].
  - rewrite app_nil_r. apply Hst.
  - replace (seen ++ raw :: rest) with ((seen ++ [raw]) ++ rest)
      by (now rewrite <- app_assoc).
    apply IH. intros p' c' H.
    apply syn_link_child in H as [H|(-> & [->|(-> & Ht)])].
    + apply syn_declaresRef_app_l. now apply Hst.
    + exact I.
    + exists raw. split; [apply in_or_app; right; now left|]. now repeat split.
Qed.

Lemma syn_pushed_keys_children ks : forall (o : NodeObj Ref) c,
  In c (o_children (fold_left (fun root k => pushTo root (RNode k)) ks o)) ->
  In c (o_children o) \/ exists k, c = RNode k.
Proof.
  induction ks as [|k ks IH]; intros o c; cbn [fold_left]; [now left|].
  intros H. apply IH in H as [H|H]; [|now right].
  cbn [pushTo o_children] in H.
  apply in_app_or in H as [H|[<-|[]]]; [now left|right; now eexists].
Qed.

Lemma syn_fallback_child st p c :
  child_of (lookup (fallback st)) p c ->
  child_of (lookup st) p c \/ (p = RSynthetic /\ exists k, c = RNode k).
Proof.
  unfold fallback.
  destruct ((length (o_children (syntheticRoot st)) =? 0)%nat
            && (0 <? map_size (nodeMap st))%nat); [|now left].
  unfold child_of. destruct p as [|pk]; cbn [lookup nodeMap syntheticRoot];
    [|now left].
  intros H. apply syn_pushed_keys_children in H as [H|H]; [now left|now right].
Qed.

Lemma syn_initial_no_child flat p c : ~ child_of (lookup (initial flat)) p c.
Proof.
  unfold child_of. destruct p as [|pk]; cbn [lookup initial nodeMap syntheticRoot].
  - cbn. tauto.
  - destruct (map_get (fold_left create flat []) pk) as [o|] eqn:Hget; [|tauto].
    apply map_get_In in Hget.
    pose proof (syn_created_no_children flat) as Hall.
    rewrite Forall_forall in Hall. apply Hall in Hget. cbn in Hget.
    rewrite Hget. tauto.
Qed.

(** Every child link of the result was declared by a record, or hangs a
    node under the synthetic root. *)
Lemma syn_build_child_declared flat d :
  buildTreeFromFlatList flat = Returned d ->
  forall p c, child_of (lookup (objects d)) p c -> declaresRef flat p c.
Proof.
  unfold buildTreeFromFlatList. intros [= <-] p c. cbn [objects].
  intros H. apply syn_fallback_child in H as [H|(-> & k & ->)]; [|exact I].
  revert H. apply (syn_links_child flat []).
  intros p' c' H'. now apply syn_initial_no_child in H'.
Qed.



(** *** Each reference is pushed at most once when ids do not repeat *)





(** *** Ids *)



Lemma syn_link_root_id st raw :
  o_id (syntheticRoot (link st raw)) = o_id (syntheticRoot st).
Proof.
  unfold link. destruct (map_get (nodeMap st) (safeId raw)); [|reflexivity].
  now destruct (truthy (parentOf raw)
                && map_has (nodeMap st) (parentOf raw)).
Qed.

Lemma syn_links_root_id flat : forall st,
  o_id (syntheticRoot (fold_left link flat st)) = o_id (syntheticRoot st).
Proof.
  induction flat as [|raw flat IH]; intros st; cbn [fold_left]; [reflexivity|].
  now rewrite IH, syn_link_root_id.
Qed.



Lemma syn_pushed_keys_id ks : forall (o : NodeObj Ref),
  o_id (fold_left (fun root k => pushTo root (RNode k)) ks o) = o_id o.
Proof.
  induction ks as [|k ks IH]; intros o; cbn [fold_left]; [reflexivity|].
  now rewrite IH.
Qed.

Lemma syn_fallback_root_id st :
  o_id (syntheticRoot (fallback st)) = o_id (syntheticRoot st).
Proof.
  unfold fallback.
  destruct ((length (o_children (syntheticRoot st)) =? 0)%nat
            && (0 <? map_size (nodeMap st))%nat); [|reflexivity].
  cbn [syntheticRoot]. apply syn_pushed_keys_id.
Qed.

(** The normalised parent id is null or a string; the four spellings of
    "no parent" are all falsy, hence top-level. *)
Lemma syn_parentOf_cases raw :
  parentOf raw = JNull \/ exists s, parentOf raw = JStr s.
Proof.
  unfold parentOf. destruct (raw_parentId raw) as [| |b|n|s]; cbn;
    try (now left); try (right; now eexists).
  destruct (String.eqb s "null"); [now left|right; now eexists].
Qed.

Lemma syn_parentOf_absent raw :
  In (raw_parentId raw) [JUndefined; JNull; JStr ""; JStr "null"] ->
  truthy (parentOf raw) = false.
Proof.
  unfold parentOf. intros [<-|[<-|[<-|[<-|[]]]]]; reflexivity.
Qed.




End SyntheticRootFacts.

(** ** Reconstruction: the properties of the specification *)

(** The single record of the specification, in the two versions: a
    one-node tree, and one node under the synthetic root. *)
Example intro_adopted :
  exists d,
    AdoptFirstRoot.buildTreeFromFlatList [introRecord] = Returned d
    /\ root d = JStr "1"
    /\ option_map o_label (AdoptFirstRoot.lookup (objects d) (root d))
       = Some (JStr "Intro")
    /\ option_map o_children (AdoptFirstRoot.lookup (objects d) (root d))
       = Some [].
Proof. eexists. repeat split; reflexivity. Qed.

Example intro_under_synthetic_root :
  exists d,
    SyntheticRoot.buildTreeFromFlatList [introRecord] = Returned d
    /\ root d = SyntheticRoot.RSynthetic
    /\ option_map o_children (SyntheticRoot.lookup (objects d) (root d))
       = Some [SyntheticRoot.RNode (JStr "1")].
Proof. eexists. repeat split; reflexivity. Qed.

(** In the objects built by either version, every node that has a child
    has a truthy id: children are only pushed under a parent id that
    passed [if (pId)], and the synthetic root is named. *)
Lemma reconstructed_parents_have_ids :
  forall flat,
    (forall d p c,
        AdoptFirstRoot.buildTreeFromFlatList flat = Returned d ->
        child_of (AdoptFirstRoot.lookup (objects d)) p c ->
        truthy p = true)
    /\ (forall d p c o,
           SyntheticRoot.buildTreeFromFlatList flat = Returned d ->
           child_of (SyntheticRoot.lookup (objects d)) p c ->
           SyntheticRoot.lookup (objects d) p = Some o ->
           match p with
           | SyntheticRoot.RSynthetic => o_id o = JStr "root-synthetic"
           | SyntheticRoot.RNode k => truthy k = true
           end).
Proof.
  intros flat. split.
  - intros d p c Hd Hc.
    apply (AdoptFirstRootFacts.afr_build_child_declared flat d Hd) in Hc.
    now destruct Hc as (raw & _ & _ & _ & Ht).
  - intros d p c o Hd Hc Ho.
    apply (SyntheticRootFacts.syn_build_child_declared flat d Hd) in Hc.
    destruct p as [|pk].
    + injection Hd as <-. cbn [objects SyntheticRoot.lookup] in Ho.
      injection Ho as <-. rewrite SyntheticRootFacts.syn_fallback_root_id.
      now rewrite SyntheticRootFacts.syn_links_root_id.
    + destruct c as [|ck]; cbn in Hc; [contradiction|].
      now destruct Hc as (raw & _ & _ & -> & Ht).
Qed.

(** C1.  For every non-empty input list, both versions of the
    reconstruction return a result, and the result designates exactly one
    root (the field [root]): in the version that adopts the first
    parentless record the root is one of the node objects; in the other it
    is the synthetic root, whose id is "root-synthetic". *)
Theorem single_designated_root :
  forall flat : list RawNode,
    flat <> [] ->
    (exists d,
        AdoptFirstRoot.buildTreeFromFlatList flat = Returned d
        /\ AdoptFirstRoot.lookup (objects d) (root d) <> None)
    /\ (exists d,
           SyntheticRoot.buildTreeFromFlatList flat = Returned d
           /\ root d = SyntheticRoot.RSynthetic
           /\ option_map o_id (SyntheticRoot.lookup (objects d) (root d))
              = Some (JStr "root-synthetic")).
Proof.
  intros flat Hne. split.
  - destruct (AdoptFirstRootFacts.afr_build_nonempty flat Hne) as (d & Hd & Hroot).
    exists d. split; [exact Hd|]. now apply map_get_in_keys.
  - eexists. split; [reflexivity|]. split; [reflexivity|].
    cbn [root objects SyntheticRoot.lookup option_map]. f_equal.
    rewrite SyntheticRootFacts.syn_fallback_root_id.
    now rewrite SyntheticRootFacts.syn_links_root_id.
Qed.

Lemma single_designated_root_witness :
  [introRecord] <> []
  /\ exists d,
       AdoptFirstRoot.buildTreeFromFlatList [introRecord] = Returned d
       /\ AdoptFirstRoot.lookup (objects d) (root d) <> None.
Proof.
  assert (H : [introRecord] <> []) by discriminate.
  split; [exact H|]. exact (proj1 (single_designated_root [introRecord] H)).
Defined.

(** C6, as stated, fails for the version with a synthetic root: it has no
    [throw], and on the empty input it returns the synthetic root alone. *)
Lemma synthetic_root_accepts_empty_input :
  ~ (exists msg, SyntheticRoot.buildTreeFromFlatList [] = Thrown msg).
Proof. intros [msg H]. discriminate H. Qed.

(** C6, amended.  The version that adopts the first parentless record
    throws the empty-result error exactly when the input is empty, and
    returns a result for every other input.  The version with a synthetic
    root returns a result for every input; for the empty input the result
    is the synthetic root without children. *)
Theorem empty_input_failure :
  forall flat : list RawNode,
    (AdoptFirstRoot.buildTreeFromFlatList flat
       = Thrown "The mind map returned by AI was empty."
     <-> flat = [])
    /\ ((exists d, AdoptFirstRoot.buildTreeFromFlatList flat = Returned d)
        <-> flat <> [])
    /\ (exists d, SyntheticRoot.buildTreeFromFlatList flat = Returned d)
    /\ SyntheticRoot.buildTreeFromFlatList []
       = Returned {| objects := SyntheticRoot.initial [];
                     root := SyntheticRoot.RSynthetic;
                     markdownSummary := ""; researchReport := "" |}.
Proof.
  intros flat. repeat split.
  - intros Hthrown. destruct flat as [|raw flat]; [reflexivity|].
    destruct (AdoptFirstRootFacts.afr_build_nonempty (raw :: flat))
      as (d & Hd & _); [discriminate|]. congruence.
  - intros ->. reflexivity.
  - intros [d Hd] ->. discriminate Hd.
  - intros Hne.
    destruct (AdoptFirstRootFacts.afr_build_nonempty flat Hne) as (d & Hd & _).
    now exists d.
  - eexists. reflexivity.
Qed.

(** C7 on the version that adopts the first parentless record: for the
    orphan input the root is "b", it has no children, and "a" is not
    reachable from it.  The claim asks for "a" to be reachable. *)
Theorem adopt_first_root_drops_orphan :
  exists d,
    AdoptFirstRoot.buildTreeFromFlatList orphanInput = Returned d
    /\ root d = JStr "b"
    /\ option_map o_children (AdoptFirstRoot.lookup (objects d) (root d))
       = Some []
    /\ ~ reachable (AdoptFirstRoot.lookup (objects d)) (root d) (JStr "a").
Proof.
  eexists. split; [reflexivity|]. split; [reflexivity|].
  split; [reflexivity|].
  intros H. apply reachable_not_child in H; [discriminate H|].
  intros c Hc. exact Hc.
Qed.

(** The version with a synthetic root keeps every top-level record, and so
    every record with a dangling parent id: it is a child of the root. *)
Lemma synthetic_root_keeps_orphans :
  forall flat raw,
    In raw flat -> SyntheticRoot.topLevel flat raw = true ->
    exists d,
      SyntheticRoot.buildTreeFromFlatList flat = Returned d
      /\ reachable (SyntheticRoot.lookup (objects d)) (root d)
           (SyntheticRoot.RNode (SyntheticRoot.safeId raw)).
Proof.
  intros flat raw Hin Htop.
  destruct (SyntheticRootFacts.syn_build_topLevel flat raw Hin Htop)
    as (d & Hd & _ & Hroot & Hchild).
  exists d. split; [exact Hd|]. rewrite Hroot. apply rt_step.
  unfold child_of. exact Hchild.
Qed.

Example synthetic_root_keeps_orphan_a :
  exists d,
    SyntheticRoot.buildTreeFromFlatList orphanInput = Returned d
    /\ option_map o_children (SyntheticRoot.lookup (objects d) (root d))
       = Some [SyntheticRoot.RNode (JStr "a"); SyntheticRoot.RNode (JStr "b")].
Proof. eexists. split; reflexivity. Qed.

(** C8 on the version that adopts the first parentless record: ids are
    used as keys as they come.  With the numeric ids 1 and 2 and the
    parent id "1", the keys are the numbers 1 and 2, and record 2 is not
    linked under record 1.  The version with a synthetic root has the
    string keys "1" and "2" and links "2" under "1". *)
Theorem adopt_first_root_keeps_raw_ids :
  let flat := [record (JNum 1) JNull; record (JNum 2) (JStr "1")] in
  (exists d,
      AdoptFirstRoot.buildTreeFromFlatList flat = Returned d
      /\ map_keys (objects d) = [JNum 1; JNum 2]
      /\ AdoptFirstRoot.allChildren (objects d) = [])
  /\ (exists d,
         SyntheticRoot.buildTreeFromFlatList flat = Returned d
         /\ map_keys (SyntheticRoot.nodeMap (objects d))
            = [JStr "1"; JStr "2"]
         /\ option_map o_children
              (SyntheticRoot.lookup (objects d)
                 (SyntheticRoot.RNode (JStr "1")))
            = Some [SyntheticRoot.RNode (JStr "2")]).
Proof. split; eexists; repeat split; reflexivity. Qed.

(** In the version with a synthetic root every key is a string, and the
    normalised parent id is null or a string, with the four spellings of
    an absent parent all top-level. *)
Lemma synthetic_root_normalises :
  forall flat raw,
    (exists s, SyntheticRoot.safeId raw = JStr s)
    /\ (SyntheticRoot.parentOf raw = JNull
        \/ exists s, SyntheticRoot.parentOf raw = JStr s)
    /\ (In (raw_parentId raw) [JUndefined; JNull; JStr ""; JStr "null"] ->
        SyntheticRoot.topLevel flat raw = true).
Proof.
  intros flat raw. split; [now eexists|].
  split; [apply SyntheticRootFacts.syn_parentOf_cases|].
  intros H. unfold SyntheticRoot.topLevel.
  now rewrite (SyntheticRootFacts.syn_parentOf_absent raw H).
Qed.







(** * Further properties: layout *)

Lemma FOP_map {A B : Type} (R : B -> B -> Prop) (f : A -> B) l :
  ForallOrdPairs (fun a b => R (f a) (f b)) l <->
  ForallOrdPairs R (map f l).
Proof.
  induction l as [|a l IH]; cbn; split; intros H; try constructor;
    inversion H as [|? ? Ha Hl]; subst.
  - rewrite Forall_map. exact Ha.
  - now apply IH.
  - rewrite Forall_map in Ha. exact Ha.
  - now apply IH.
Qed.

Lemma FOP_app {A : Type} (R : A -> A -> Prop) l1 l2 :
  ForallOrdPairs R l1 -> ForallOrdPairs R l2 ->
  (forall a b, In a l1 -> In b l2 -> R a b) ->
  ForallOrdPairs R (l1 ++ l2).
Proof.
  induction 1 as [|a l1 Ha _ IH]; intros H2 Hcross; cbn; [exact H2|].
  constructor.
  - apply Forall_app. split; [exact Ha|].
    apply Forall_forall. intros b Hb. apply Hcross; [now left|exact Hb].
  - apply IH; [exact H2|]. intros x y Hx Hy. apply Hcross; [now right|exact Hy].
Qed.

(** ** Slots of a footprint function that obeys the footprint law *)

Section SlotFacts.
Variables (BASE SPACING : Z) (fp : MindMapNode -> Z).
Hypothesis Hbase : 0 < BASE.
Hypothesis Hspacing : 0 <= SPACING.
Hypothesis Hlower : forall t, BASE <= fp t.
Hypothesis Hinternal : forall t,
  children t <> [] ->
  fp t = sumZ (map fp (children t))
         + (Z.of_nat (length (children t)) - 1) * SPACING.

Local Abbreviation total := (runLength SPACING fp).

(** Every slot of a subtree lies within the slot of its root, and deeper. *)

Lemma slotsEach_inside d cs :
  Forall (fun c => forall s, Forall (insideOf BASE d s (fp c)) (slots SPACING fp d c s))
         cs ->
  forall s,
    Forall (insideOf BASE d s (total cs - SPACING))
      (slotsEach SPACING fp (fun c s' => slots SPACING fp d c s') cs s).
Proof.
  unfold runLength.
  induction 1 as [|c cs Hc _ IH]; intros s; cbn [slotsEach]; [constructor|].
  assert (Hrest : 0 <= sumZ (map fp cs) + Z.of_nat (length cs) * SPACING).
  { clear -Hbase Hspacing Hlower.
    induction cs as [|c' cs' IH]; cbn [map sumZ fold_right length]; [lia|].
    fold (sumZ (map fp cs')). rewrite Nat2Z.inj_succ, Z.mul_succ_l.
    pose proof (Hlower c'). lia. }
  apply Forall_app. split.
  - specialize (Hc s). revert Hc. apply Forall_impl.
    intros sl (H1 & H2 & H3 & H4). unfold insideOf.
    cbn [map sumZ fold_right length]. fold (sumZ (map fp cs)).
    repeat split; try assumption. lia.
  - specialize (IH (s + fp c + SPACING)). revert IH. apply Forall_impl.
    intros sl (H1 & H2 & H3 & H4). unfold insideOf.
    cbn [map sumZ fold_right length]. fold (sumZ (map fp cs)).
    pose proof (Hlower c).
    repeat split; try assumption; lia.
Qed.

Lemma slots_inside t : forall d s,
  Forall (insideOf BASE d s (fp t)) (slots SPACING fp d t s).
Proof.
  induction t as [i l su q pg cs w h IH] using MindMapNode_Forall_ind.
  intros d s. cbn [slots children]. constructor.
  - unfold insideOf. cbn. pose proof (Hlower (mkNode i l su q pg cs w h)).
    repeat split; lia.
  - destruct cs as [|c0 cs0]; [constructor|].
    assert (Hall : Forall (fun c => forall s0,
                             Forall (insideOf BASE (S d) s0 (fp c))
                                    (slots SPACING fp (S d) c s0))
                          (c0 :: cs0)).
    { revert IH. apply Forall_impl. intros c Hc s0. apply Hc. }
    pose proof (slotsEach_inside (S d) (c0 :: cs0) Hall s) as H.
    revert H. apply Forall_impl. intros sl (H1 & H2 & H3 & H4).
    rewrite (Hinternal (mkNode i l su q pg (c0 :: cs0) w h))
      by (cbn; discriminate).
    cbn [children]. unfold insideOf, runLength in *.
    repeat split; try assumption; lia.
Qed.

(** Two slots of the same depth, taken in order, are [SPACING] apart. *)

Lemma slotsEach_apart d cs :
  Forall (fun c => forall s,
            ForallOrdPairs (slotsApart SPACING) (slots SPACING fp d c s)) cs ->
  forall s,
    ForallOrdPairs (slotsApart SPACING)
      (slotsEach SPACING fp (fun c s' => slots SPACING fp d c s') cs s).
Proof.
  induction 1 as [|c cs Hc Hcs IH]; intros s; cbn [slotsEach]; [constructor|].
  apply FOP_app; [apply Hc|apply IH|].
  intros a b Ha Hb _.
  pose proof (slots_inside c d s) as Hin1. rewrite Forall_forall in Hin1.
  destruct (Hin1 a Ha) as (_ & Ha2 & _).
  assert (Hin2 : Forall (insideOf BASE d (s + fp c + SPACING) (total cs - SPACING))
                   (slotsEach SPACING fp
                      (fun c s' => slots SPACING fp d c s') cs
                      (s + fp c + SPACING))).
  { apply slotsEach_inside. apply Forall_forall. intros c' _ s0.
    apply slots_inside. }
  rewrite Forall_forall in Hin2. destruct (Hin2 b Hb) as (Hb1 & _). lia.
Qed.

Lemma slots_apart t : forall d s,
  ForallOrdPairs (slotsApart SPACING) (slots SPACING fp d t s).
Proof.
  induction t as [i l su q pg cs w h IH] using MindMapNode_Forall_ind.
  intros d s. cbn [slots children]. constructor.
  - assert (Hall : Forall (fun c => forall s0,
                             Forall (insideOf BASE (S d) s0 (fp c))
                                    (slots SPACING fp (S d) c s0)) cs).
    { apply Forall_forall. intros c' _ s0. apply slots_inside. }
    pose proof (slotsEach_inside (S d) cs Hall s) as H.
    revert H. apply Forall_impl. intros sl (_ & _ & H3 & _) Heq.
    cbn [slotDepth fst] in Heq. lia.
  - apply slotsEach_apart. revert IH. apply Forall_impl.
    intros c Hc s0. apply Hc.
Qed.

Lemma slots_depths t : forall d s,
  map slotDepth (slots SPACING fp d t s) = depthsFrom d t.
Proof.
  induction t as [i l su q pg cs w h IH] using MindMapNode_Forall_ind.
  intros d s. cbn [slots depthsFrom children map slotDepth fst]. f_equal.
  revert s. induction IH as [|c cs Hc _ IHcs]; intros s; [reflexivity|].
  cbn [slotsEach flat_map]. rewrite map_app, Hc, IHcs. reflexivity.
Qed.

End SlotFacts.

(** ** The two layouts in terms of slots *)

Lemma preorder_depths_length t : forall d,
  length (depthsFrom d t) = length (preorder t).
Proof.
  induction t as [i l su q pg cs w h IH] using MindMapNode_Forall_ind.
  intros d. cbn [depthsFrom preorder children length]. f_equal.
  induction IH as [|c cs Hc _ IHcs]; [reflexivity|].
  cbn [flat_map]. rewrite !length_app, Hc, IHcs. reflexivity.
Qed.

Module TopDownMore.
Import TopDown TopDownFacts.

Lemma tdm_frames_eq t x y :
  frames t x y
  = (t, x, y)
      :: framesEach
           (fun child currentX =>
              frames child currentX
                (y + Some NODE_HEIGHT + Some Y_SPACING)%num)
           (children t) x.
Proof. destruct t; reflexivity. Qed.

Lemma tdm_slots_eq d t s :
  slots X_SPACING footprint d t s
  = (d, s, footprint t)
      :: slotsEach X_SPACING footprint
           (fun c s' => slots X_SPACING footprint (S d) c s') (children t) s.
Proof. destruct t; reflexivity. Qed.

(** Cursor, rank coordinate and footprint of every frame of a sized tree,
    read off the slots of the tree. *)
Lemma tdm_frames_slots t : forall d x y,
  map (fun f => (frameX f, frameY f, width (frameNode f)))
      (frames (sized t) (Some x)
         (Some (y + Z.of_nat d * (NODE_HEIGHT + Y_SPACING))))
  = map (fun sl => (Some (slotStart sl),
                    Some (y + Z.of_nat (slotDepth sl)
                              * (NODE_HEIGHT + Y_SPACING)),
                    Some (slotLength sl)))
        (slots X_SPACING footprint d t x).
Proof.
  induction t as [i l su q pg cs w h IH] using MindMapNode_Forall_ind.
  intros d x y. rewrite tdm_frames_eq, tdm_slots_eq. cbn [map].
  cbn [frameX frameY frameNode fst snd slotStart slotDepth slotLength].
  rewrite td_sized_width, td_sized_children. cbn [children]. f_equal.
  replace (Some (y + Z.of_nat d * (NODE_HEIGHT + Y_SPACING))%Z
           + Some NODE_HEIGHT + Some Y_SPACING)%num
    with (Some (y + Z.of_nat (S d) * (NODE_HEIGHT + Y_SPACING)))
    by (cbn [nadd nlift2]; f_equal; lia).
  revert x. induction IH as [|c cs Hc _ IHcs]; intros x; [reflexivity|].
  cbn [map framesEach slotsEach]. rewrite !map_app, Hc. f_equal.
  rewrite td_sized_width. cbn [nadd nlift2]. apply IHcs.
Qed.

Lemma tdm_records_slots options t x y :
  map (fun n => (n_x n, n_y n))
      (fst (assignPositions (fst (calculateSubtreeSize t)) (Some x) (Some y)
              [] [] options None))
  = map (fun sl => (Some (slotStart sl + slotLength sl / 2 - NODE_WIDTH / 2),
                    Some (y + Z.of_nat (slotDepth sl)
                              * (NODE_HEIGHT + Y_SPACING))))
        (slots X_SPACING footprint 0 t x).
Proof.
  rewrite td_calculateSubtreeSize_eq, td_assignPositions_spec. cbn [fst app].
  pose proof (tdm_frames_slots t 0 x y) as H.
  replace (y + Z.of_nat 0 * (NODE_HEIGHT + Y_SPACING)) with y in H by lia.
  rewrite map_map.
  apply (f_equal (map (fun tr : num * num * option Z =>
                         let '(fx, fy, fw) := tr in
                         ((fx + nhalf fw - nhalf (Some NODE_WIDTH))%num, fy))))
    in H.
  rewrite !map_map in H. exact H.
Qed.

Lemma tdm_frame_nodes t : forall x y,
  map frameNode (frames t x y) = preorder t.
Proof.
  induction t as [i l su q pg cs w h IH] using MindMapNode_Forall_ind.
  intros x y. rewrite tdm_frames_eq, preorder_eq.
  cbn [children map frameNode fst]. f_equal.
  generalize (y + Some NODE_HEIGHT + Some Y_SPACING)%num as y'. intros y'.
  revert x. induction IH as [|c cs Hc _ IHcs]; intros x; [reflexivity|].
  cbn [framesEach flat_map]. rewrite map_app, Hc, IHcs. reflexivity.
Qed.

Lemma tdm_sized_payload options t :
  map (payloadOf options) (preorder (sized t))
  = map (payloadOf options) (preorder t).
Proof.
  induction t as [i l su q pg cs w h IH] using MindMapNode_Forall_ind.
  rewrite (preorder_eq (sized _)), (preorder_eq (mkNode _ _ _ _ _ _ _ _)).
  rewrite td_sized_children. cbn [children map]. f_equal.
  induction IH as [|c cs Hc _ IHcs]; [reflexivity|].
  cbn [map flat_map]. rewrite !map_app, Hc, IHcs. reflexivity.
Qed.

Lemma tdm_sized_footprint t : footprint (sized t) = footprint t.
Proof.
  induction t as [i l su q pg cs w h IH] using MindMapNode_Forall_ind.
  destruct cs as [|c cs]; [reflexivity|].
  assert (Hmap : map footprint (map sized (c :: cs)) = map footprint (c :: cs)).
  { clear -IH. induction IH as [|c' cs' Hc _ IHcs]; cbn [map]; congruence. }
  rewrite (td_footprint_internal (sized _))
    by (rewrite td_sized_children; discriminate).
  rewrite (td_footprint_internal (mkNode _ _ _ _ _ _ _ _))
    by (cbn; discriminate).
  rewrite td_sized_children. cbn [children].
  now rewrite Hmap, length_map.
Qed.

Lemma tdm_sized_eq t :
  sized t = setWidth t (map sized (children t)) (footprint t).
Proof. destruct t; reflexivity. Qed.

Lemma tdm_sized_idem t : sized (sized t) = sized t.
Proof.
  induction t as [i l su q pg cs w h IH] using MindMapNode_Forall_ind.
  rewrite (tdm_sized_eq (sized _)), tdm_sized_footprint, td_sized_children.
  rewrite map_map. cbn [children].
  replace (map (fun x => sized (sized x)) cs) with (map sized cs);
    [reflexivity|].
  clear -IH. induction IH as [|c' cs' Hc _ IHcs]; [reflexivity|].
  cbn [map]. now rewrite Hc, IHcs.
Qed.

Lemma tdm_footprint_leaves t :
  footprint t = leafCount t * NODE_WIDTH + (leafCount t - 1) * X_SPACING.
Proof.
  induction t as [i l su q pg cs w h IH] using MindMapNode_Forall_ind.
  destruct cs as [|c cs]; [reflexivity|].
  rewrite td_footprint_internal by (cbn; discriminate).
  cbn [children leafCount].
  generalize (c :: cs) IH. clear. intros cs IH.
  assert (H : sumZ (map footprint cs)
              = sumZ (map leafCount cs) * (NODE_WIDTH + X_SPACING)
                - Z.of_nat (length cs) * X_SPACING).
  { induction IH as [|c' cs' Hc _ IHcs]; [reflexivity|].
    cbn [map sumZ fold_right length]. fold (sumZ (map footprint cs')).
    fold (sumZ (map leafCount cs')). rewrite Hc, IHcs, Nat2Z.inj_succ. lia. }
  rewrite H. lia.
Qed.

End TopDownMore.

Module LeftRightMore.
Import LeftRight LeftRightFacts.

Lemma lrm_frames_eq t x y :
  frames t x y
  = (t, x, y)
      :: framesEach
           (fun child currentY =>
              frames child (x + Some NODE_WIDTH + Some RANK_SPACING)%num
                currentY)
           (children t) (childStart t y).
Proof. destruct t; reflexivity. Qed.

Lemma lrm_slots_eq d t s :
  slots NODE_SPACING footprint d t s
  = (d, s, footprint t)
      :: slotsEach NODE_SPACING footprint
           (fun c s' => slots NODE_SPACING footprint (S d) c s')
           (children t) s.
Proof. destruct t; reflexivity. Qed.

(** Rank coordinate, cursor and footprint of every frame of a sized tree,
    read off the slots of the tree. *)
Lemma lrm_frames_slots t : forall d x y,
  map (fun f => (frameX f, frameY f, height (frameNode f)))
      (frames (sized t)
         (Some (x + Z.of_nat d * (NODE_WIDTH + RANK_SPACING))) (Some y))
  = map (fun sl => (Some (x + Z.of_nat (slotDepth sl)
                              * (NODE_WIDTH + RANK_SPACING)),
                    Some (slotStart sl),
                    Some (slotLength sl)))
        (slots NODE_SPACING footprint d t y).
Proof.
  induction t as [i l su q pg cs w h IH] using MindMapNode_Forall_ind.
  intros d x y. rewrite lrm_frames_eq, lrm_slots_eq. cbn [map].
  cbn [frameX frameY frameNode fst snd slotStart slotDepth slotLength].
  rewrite lr_sized_height. f_equal.
  destruct cs as [|c0 cs0].
  { rewrite lr_sized_children. reflexivity. }
  rewrite lr_childStart_sized by discriminate.
  rewrite lr_sized_children. cbn [children].
  replace (Some (x + Z.of_nat d * (NODE_WIDTH + RANK_SPACING))%Z
           + Some NODE_WIDTH + Some RANK_SPACING)%num
    with (Some (x + Z.of_nat (S d) * (NODE_WIDTH + RANK_SPACING)))
    by (cbn [nadd nlift2]; f_equal; lia).
  revert y. induction IH as [|c cs Hc _ IHcs]; intros y; [reflexivity|].
  cbn [map framesEach slotsEach]. rewrite !map_app, Hc. f_equal.
  rewrite lr_sized_height. cbn [nadd nlift2]. apply IHcs.
Qed.

Lemma lrm_records_slots options t x y :
  map (fun n => (n_x n, n_y n))
      (fst (assignPositions (fst (calculateSubtreeHeight t)) (Some x) (Some y)
              [] [] options None))
  = map (fun sl => (Some (x + Z.of_nat (slotDepth sl)
                              * (NODE_WIDTH + RANK_SPACING)),
                    Some (slotStart sl + slotLength sl / 2 - NODE_HEIGHT / 2)))
        (slots NODE_SPACING footprint 0 t y).
Proof.
  rewrite lr_calculateSubtreeHeight_eq, lr_assignPositions_spec. cbn [fst app].
  pose proof (lrm_frames_slots t 0 x y) as H.
  replace (x + Z.of_nat 0 * (NODE_WIDTH + RANK_SPACING)) with x in H by lia.
  rewrite map_map.
  apply (f_equal (map (fun tr : num * num * option Z =>
                         let '(fx, fy, fh) := tr in
                         (fx, (fy + nhalf fh - nhalf (Some NODE_HEIGHT))%num))))
    in H.
  rewrite !map_map in H. exact H.
Qed.

Lemma lrm_frame_nodes t : forall x y,
  map frameNode (frames t x y) = preorder t.
Proof.
  induction t as [i l su q pg cs w h IH] using MindMapNode_Forall_ind.
  intros x y. rewrite lrm_frames_eq, preorder_eq.
  cbn [children map frameNode fst]. f_equal.
  generalize (x + Some NODE_WIDTH + Some RANK_SPACING)%num as x'. intros x'.
  generalize (childStart (mkNode i l su q pg cs w h) y) as y'.
  induction IH as [|c cs Hc _ IHcs]; intros y'; [reflexivity|].
  cbn [framesEach flat_map]. rewrite map_app, Hc, IHcs. reflexivity.
Qed.

Lemma lrm_sized_payload options t :
  map (payloadOf options) (preorder (sized t))
  = map (payloadOf options) (preorder t).
Proof.
  induction t as [i l su q pg cs w h IH] using MindMapNode_Forall_ind.
  rewrite (preorder_eq (sized _)), (preorder_eq (mkNode _ _ _ _ _ _ _ _)).
  rewrite lr_sized_children. cbn [children map]. f_equal.
  induction IH as [|c cs Hc _ IHcs]; [reflexivity|].
  cbn [map flat_map]. rewrite !map_app, Hc, IHcs. reflexivity.
Qed.

Lemma lrm_sized_footprint t : footprint (sized t) = footprint t.
Proof.
  induction t as [i l su q pg cs w h IH] using MindMapNode_Forall_ind.
  destruct cs as [|c cs]; [reflexivity|].
  assert (Hmap : map footprint (map sized (c :: cs)) = map footprint (c :: cs)).
  { clear -IH. induction IH as [|c' cs' Hc _ IHcs]; cbn [map]; congruence. }
  rewrite (lr_footprint_internal (sized _))
    by (rewrite lr_sized_children; discriminate).
  rewrite (lr_footprint_internal (mkNode _ _ _ _ _ _ _ _))
    by (cbn; discriminate).
  rewrite lr_sized_children. cbn [children].
  now rewrite Hmap, length_map.
Qed.

Lemma lrm_sized_eq t :
  sized t = setHeight t (map sized (children t)) (footprint t).
Proof. destruct t; reflexivity. Qed.

Lemma lrm_sized_idem t : sized (sized t) = sized t.
Proof.
  induction t as [i l su q pg cs w h IH] using MindMapNode_Forall_ind.
  rewrite (lrm_sized_eq (sized _)), lrm_sized_footprint, lr_sized_children.
  rewrite map_map. cbn [children].
  replace (map (fun x => sized (sized x)) cs) with (map sized cs);
    [reflexivity|].
  clear -IH. induction IH as [|c' cs' Hc _ IHcs]; [reflexivity|].
  cbn [map]. now rewrite Hc, IHcs.
Qed.

Lemma lrm_footprint_leaves t :
  footprint t = leafCount t * NODE_HEIGHT + (leafCount t - 1) * NODE_SPACING.
Proof.
  induction t as [i l su q pg cs w h IH] using MindMapNode_Forall_ind.
  destruct cs as [|c cs]; [reflexivity|].
  rewrite lr_footprint_internal by (cbn; discriminate).
  cbn [children leafCount].
  generalize (c :: cs) IH. clear. intros cs IH.
  assert (H : sumZ (map footprint cs)
              = sumZ (map leafCount cs) * (NODE_HEIGHT + NODE_SPACING)
                - Z.of_nat (length cs) * NODE_SPACING).
  { induction IH as [|c' cs' Hc _ IHcs]; [reflexivity|].
    cbn [map sumZ fold_right length]. fold (sumZ (map footprint cs')).
    fold (sumZ (map leafCount cs')). rewrite Hc, IHcs, Nat2Z.inj_succ. lia. }
  rewrite H. lia.
Qed.

End LeftRightMore.

Lemma FOP_impl_in {A : Type} (R R' : A -> A -> Prop) l :
  (forall a b, In a l -> In b l -> R a b -> R' a b) ->
  ForallOrdPairs R l -> ForallOrdPairs R' l.
Proof.
  intros Himpl H. induction H as [|a l Ha _ IH]; constructor.
  - rewrite Forall_forall in *. intros b Hb.
    apply Himpl; [now left|now right|now apply Ha].
  - apply IH. intros x y Hx Hy. apply Himpl; now right.
Qed.

(** ** Layout: further properties *)

(** X1.  Both layouts push exactly one record per node of the tree, in
    pre-order (parent first, children in order), and the record carries
    the node's id, label, summary, page number and quote unchanged,
    together with the font class of the options. *)
Theorem records_follow_preorder :
  forall (t : MindMapNode) (options : MindMapOptions),
    map shown (fst (TopDown.layout (Some t) options))
    = map (payloadOf options) (preorder t)
    /\ map shown (fst (LeftRight.layout (Some t) options))
       = map (payloadOf options) (preorder t).
Proof.
  intros t options. split.
  - unfold TopDown.layout.
    rewrite TopDownFacts.td_calculateSubtreeSize_eq,
      TopDownFacts.td_assignPositions_spec.
    cbn [fst app]. rewrite map_map.
    rewrite <- TopDownMore.tdm_sized_payload.
    rewrite <- (TopDownMore.tdm_frame_nodes (TopDown.sized t) (Some 0) (Some 0)).
    rewrite map_map. reflexivity.
  - unfold LeftRight.layout.
    rewrite LeftRightFacts.lr_calculateSubtreeHeight_eq,
      LeftRightFacts.lr_assignPositions_spec.
    cbn [fst app]. rewrite map_map.
    rewrite <- LeftRightMore.lrm_sized_payload.
    rewrite <- (LeftRightMore.lrm_frame_nodes (LeftRight.sized t)
                  (Some 0) (Some 0)).
    rewrite map_map. reflexivity.
Qed.

(** X2.  The coordinate along the rank axis is the depth of the node times
    a fixed step: in the top-down layout [y] is depth times
    (NODE_HEIGHT + Y_SPACING), in the left-to-right layout [x] is depth
    times (NODE_WIDTH + RANK_SPACING). *)
Theorem rank_follows_depth :
  forall (t : MindMapNode) (options : MindMapOptions),
    map n_y (fst (TopDown.layout (Some t) options))
    = map (fun d => Some (Z.of_nat d
                          * (TopDown.NODE_HEIGHT + TopDown.Y_SPACING)))
          (depthsFrom 0 t)
    /\ map n_x (fst (LeftRight.layout (Some t) options))
       = map (fun d => Some (Z.of_nat d
                             * (LeftRight.NODE_WIDTH + LeftRight.RANK_SPACING)))
             (depthsFrom 0 t).
Proof.
  intros t options. split.
  - pose proof (TopDownMore.tdm_records_slots options t 0 0) as H.
    apply (f_equal (map snd)) in H. rewrite !map_map in H. cbn [snd] in H.
    unfold TopDown.layout. etransitivity; [exact H|].
    rewrite <- (slots_depths TopDown.X_SPACING TopDown.footprint t 0 0).
    rewrite map_map. reflexivity.
  - pose proof (LeftRightMore.lrm_records_slots options t 0 0) as H.
    apply (f_equal (map fst)) in H. rewrite !map_map in H. cbn [fst] in H.
    unfold LeftRight.layout. etransitivity; [exact H|].
    rewrite <- (slots_depths LeftRight.NODE_SPACING LeftRight.footprint t 0 0).
    rewrite map_map. reflexivity.
Qed.

(** X3.  No two boxes of the same rank overlap, wherever they are in the
    tree: of two records with the same rank coordinate, the one pushed
    later starts at least a box size plus a spacing after the start of
    the earlier one (NODE_WIDTH + X_SPACING along x in the top-down
    layout, NODE_HEIGHT + NODE_SPACING along y in the left-to-right
    layout). *)
Theorem same_rank_boxes_apart :
  forall (t : MindMapNode) (options : MindMapOptions),
    separated n_y n_x (TopDown.NODE_WIDTH + TopDown.X_SPACING)
      (fst (TopDown.layout (Some t) options))
    /\ separated n_x n_y (LeftRight.NODE_HEIGHT + LeftRight.NODE_SPACING)
         (fst (LeftRight.layout (Some t) options)).
Proof.
  intros t options. split.
  - unfold separated, TopDown.layout.
    apply (proj2 (FOP_map
      (fun p q : num * num =>
         snd p = snd q ->
         exists pa pb, fst p = Some pa /\ fst q = Some pb
                       /\ pa + (TopDown.NODE_WIDTH + TopDown.X_SPACING) <= pb)
      (fun n => (n_x n, n_y n)) _)).
    rewrite TopDownMore.tdm_records_slots. apply FOP_map.
    pose proof (slots_inside TopDown.NODE_WIDTH TopDown.X_SPACING
                  TopDown.footprint ltac:(reflexivity) ltac:(discriminate)
                  TopDownFacts.td_footprint_lower
                  TopDownFacts.td_footprint_internal t 0 0) as Hin.
    rewrite Forall_forall in Hin.
    eapply FOP_impl_in;
      [|apply (slots_apart TopDown.NODE_WIDTH TopDown.X_SPACING
                 TopDown.footprint ltac:(reflexivity) ltac:(discriminate)
                 TopDownFacts.td_footprint_lower
                 TopDownFacts.td_footprint_internal t 0 0)].
    intros a b Ha Hb Hab Hrank. cbn [fst snd] in *.
    destruct (Hin a Ha) as (_ & _ & _ & Hwa).
    destruct (Hin b Hb) as (_ & _ & _ & Hwb).
    injection Hrank as Hrank.
    assert (Hd : slotDepth a = slotDepth b).
    { unfold TopDown.NODE_HEIGHT, TopDown.Y_SPACING in Hrank. lia. }
    specialize (Hab Hd). eexists. eexists.
    split; [reflexivity|]. split; [reflexivity|].
    unfold TopDown.NODE_WIDTH, TopDown.X_SPACING in *. Z.to_euclidean_division_equations. lia.
  - unfold separated, LeftRight.layout.
    apply (proj2 (FOP_map
      (fun p q : num * num =>
         fst p = fst q ->
         exists pa pb, snd p = Some pa /\ snd q = Some pb
                       /\ pa + (LeftRight.NODE_HEIGHT + LeftRight.NODE_SPACING)
                          <= pb)
      (fun n => (n_x n, n_y n)) _)).
    rewrite LeftRightMore.lrm_records_slots. apply FOP_map.
    pose proof (slots_inside LeftRight.NODE_HEIGHT LeftRight.NODE_SPACING
                  LeftRight.footprint ltac:(reflexivity) ltac:(discriminate)
                  LeftRightFacts.lr_footprint_lower
                  LeftRightFacts.lr_footprint_internal t 0 0) as Hin.
    rewrite Forall_forall in Hin.
    eapply FOP_impl_in;
      [|apply (slots_apart LeftRight.NODE_HEIGHT LeftRight.NODE_SPACING
                 LeftRight.footprint ltac:(reflexivity) ltac:(discriminate)
                 LeftRightFacts.lr_footprint_lower
                 LeftRightFacts.lr_footprint_internal t 0 0)].
    intros a b Ha Hb Hab Hrank. cbn [fst snd] in *.
    destruct (Hin a Ha) as (_ & _ & _ & Hwa).
    destruct (Hin b Hb) as (_ & _ & _ & Hwb).
    injection Hrank as Hrank.
    assert (Hd : slotDepth a = slotDepth b).
    { unfold LeftRight.NODE_WIDTH, LeftRight.RANK_SPACING in Hrank. lia. }
    specialize (Hab Hd). eexists. eexists.
    split; [reflexivity|]. split; [reflexivity|].
    unfold LeftRight.NODE_HEIGHT, LeftRight.NODE_SPACING in *. Z.to_euclidean_division_equations. lia.
Qed.

(** X4.  The whole drawing fits the footprint of the root: along the
    packing axis every box lies between 0 and the value returned by the
    metric pass for the root. *)
Theorem boxes_within_root_footprint :
  forall (t : MindMapNode) (options : MindMapOptions),
    boxesWithin n_x TopDown.NODE_WIDTH
      (snd (TopDown.calculateSubtreeSize t))
      (fst (TopDown.layout (Some t) options))
    /\ boxesWithin n_y LeftRight.NODE_HEIGHT
         (snd (LeftRight.calculateSubtreeHeight t))
         (fst (LeftRight.layout (Some t) options)).
Proof.
  intros t options. split.
  - unfold boxesWithin, TopDown.layout.
    apply (proj1 (Forall_map (fun n => (n_x n, n_y n))
      (fun p : num * num =>
         exists q, fst p = Some q /\ 0 <= q
                   /\ q + TopDown.NODE_WIDTH
                      <= snd (TopDown.calculateSubtreeSize t)) _)).
    rewrite TopDownMore.tdm_records_slots. apply Forall_map.
    rewrite TopDownFacts.td_calculateSubtreeSize_eq. cbn [snd].
    pose proof (slots_inside TopDown.NODE_WIDTH TopDown.X_SPACING
                  TopDown.footprint ltac:(reflexivity) ltac:(discriminate)
                  TopDownFacts.td_footprint_lower
                  TopDownFacts.td_footprint_internal t 0 0) as Hin.
    revert Hin. apply Forall_impl. intros sl (H1 & H2 & _ & H4).
    eexists. split; [reflexivity|].
    unfold TopDown.NODE_WIDTH in *. Z.to_euclidean_division_equations. lia.
  - unfold boxesWithin, LeftRight.layout.
    apply (proj1 (Forall_map (fun n => (n_x n, n_y n))
      (fun p : num * num =>
         exists q, snd p = Some q /\ 0 <= q
                   /\ q + LeftRight.NODE_HEIGHT
                      <= snd (LeftRight.calculateSubtreeHeight t)) _)).
    rewrite LeftRightMore.lrm_records_slots. apply Forall_map.
    rewrite LeftRightFacts.lr_calculateSubtreeHeight_eq. cbn [snd].
    pose proof (slots_inside LeftRight.NODE_HEIGHT LeftRight.NODE_SPACING
                  LeftRight.footprint ltac:(reflexivity) ltac:(discriminate)
                  LeftRightFacts.lr_footprint_lower
                  LeftRightFacts.lr_footprint_internal t 0 0) as Hin.
    revert Hin. apply Forall_impl. intros sl (H1 & H2 & _ & H4).
    eexists. split; [reflexivity|].
    unfold LeftRight.NODE_HEIGHT in *. Z.to_euclidean_division_equations. lia.
Qed.

(** X5.  The footprint the metric pass returns depends only on the number
    of leaves of the subtree: it is that many boxes with a spacing between
    each two, in both layouts. *)
Theorem footprint_counts_leaves :
  forall t : MindMapNode,
    snd (TopDown.calculateSubtreeSize t)
    = leafCount t * TopDown.NODE_WIDTH
      + (leafCount t - 1) * TopDown.X_SPACING
    /\ snd (LeftRight.calculateSubtreeHeight t)
       = leafCount t * LeftRight.NODE_HEIGHT
         + (leafCount t - 1) * LeftRight.NODE_SPACING.
Proof.
  intros t. split.
  - rewrite TopDownFacts.td_calculateSubtreeSize_eq.
    apply TopDownMore.tdm_footprint_leaves.
  - rewrite LeftRightFacts.lr_calculateSubtreeHeight_eq.
    apply LeftRightMore.lrm_footprint_leaves.
Qed.

(** X6.  Running the metric pass again over the tree it has annotated (as
    happens when the options change) changes nothing: same tree, same
    returned footprint. *)
Theorem metric_pass_rerun :
  forall t : MindMapNode,
    TopDown.calculateSubtreeSize (fst (TopDown.calculateSubtreeSize t))
    = TopDown.calculateSubtreeSize t
    /\ LeftRight.calculateSubtreeHeight
         (fst (LeftRight.calculateSubtreeHeight t))
       = LeftRight.calculateSubtreeHeight t.
Proof.
  intros t. split.
  - rewrite !TopDownFacts.td_calculateSubtreeSize_eq. cbn [fst].
    now rewrite TopDownMore.tdm_sized_idem, TopDownMore.tdm_sized_footprint.
  - rewrite !LeftRightFacts.lr_calculateSubtreeHeight_eq. cbn [fst].
    now rewrite LeftRightMore.lrm_sized_idem, LeftRightMore.lrm_sized_footprint.
Qed.

(** * Further properties: reconstruction *)

Section JsMapMore.
Context {V : Type}.
Implicit Types (m : JsMap V) (k : jsval) (v : V).


Lemma map_set_keys_eq m k v :
  map_keys (map_set m k v)
  = if existsb (jsval_eqb k) (map_keys m) then map_keys m
    else map_keys m ++ [k].
Proof.
  unfold map_keys. induction m as [|[k0 v0] m IH]; cbn; [reflexivity|].
  destruct (jsval_eqb_spec k0 k) as [->|Hne]; cbn.
  - now rewrite jsval_eqb_refl.
  - destruct (jsval_eqb_spec k k0) as [->|_]; [congruence|]. cbn.
    rewrite IH. now destruct (existsb (jsval_eqb k) (map fst m)).
Qed.

End JsMapMore.

Lemma existsb_eqb_In k l : existsb (jsval_eqb k) l = true <-> In k l.
Proof.
  rewrite existsb_exists. split.
  - intros (x & Hin & Hx). now destruct (jsval_eqb_spec k x) as [->|].
  - intros Hin. exists k. split; [exact Hin|apply jsval_eqb_refl].
Qed.

Lemma filter_filter {A : Type} (p q : A -> bool) l :
  filter p (filter q l) = filter (fun x => q x && p x) l.
Proof.
  induction l as [|a l IH]; cbn; [reflexivity|].
  destruct (q a); cbn; [destruct (p a)|]; now rewrite IH.
Qed.

(** The keys after the first pass, started on a map that already has the
    keys [ks]. *)
Lemma firstKeys_from (ids ks : list jsval) :
  fold_left (fun acc k => if existsb (jsval_eqb k) acc then acc
                          else acc ++ [k]) ids ks
  = ks ++ filter (fun k => negb (existsb (jsval_eqb k) ks)) (firstKeys ids).
Proof.
  revert ks. induction ids as [|k ids IH]; intros ks; cbn [fold_left firstKeys].
  - cbn. now rewrite app_nil_r.
  - rewrite IH. cbn [filter].
    destruct (existsb (jsval_eqb k) ks) eqn:Hk; cbn [negb].
    + f_equal. rewrite filter_filter. apply filter_ext_in. intros x _.
      destruct (jsval_eqb_spec x k) as [->|Hne]; cbn; [now rewrite Hk|reflexivity].
    + rewrite <- app_assoc. cbn [app]. f_equal. f_equal.
      rewrite filter_filter. apply filter_ext. intros x.
      rewrite existsb_app. cbn [existsb].
      now destruct (existsb (jsval_eqb x) ks), (jsval_eqb x k).
Qed.


Lemma filter_all {A : Type} (p : A -> bool) l :
  (forall x, p x = true) -> filter p l = l.
Proof.
  intros Hp. induction l as [|a l IH]; cbn; [reflexivity|].
  now rewrite Hp, IH.
Qed.



(** ** The version that adopts the first parentless record *)

Module AdoptMore.
Import AdoptFirstRoot AdoptFirstRootFacts.

Lemma afm_created_keys flat : forall (m : Store),
  map_keys (fold_left create flat m)
  = fold_left (fun acc k => if existsb (jsval_eqb k) acc then acc
                            else acc ++ [k])
              (map raw_id flat) (map_keys m).
Proof.
  induction flat as [|raw flat IH]; intros m; cbn [fold_left map];
    [reflexivity|].
  rewrite IH. unfold create at 1. now rewrite map_set_keys_eq.
Qed.






Lemma afm_links_root rest : forall st,
  (forall r, In r rest -> In (raw_id r) (map_keys (fst st))) ->
  snd (fold_left link rest st)
  = match snd st with
    | Some r => Some r
    | None => option_map raw_id (find adoptParentless rest)
    end.
Proof.
  induction rest as [|raw rest IH]; intros st Hkeys; cbn [fold_left find].
  - now destruct (snd st).
  - rewrite IH by (intros r Hr; rewrite afr_link_keys; apply Hkeys; now right).
    destruct st as [m r0]. cbn [snd]. unfold link, adoptParentless.
    destruct (map_get m (raw_id raw)) eqn:Hnode.
    + destruct (truthy (parentOf raw)); cbn [negb].
      * now destruct (map_get m (parentOf raw)).
      * cbn [snd]. now destruct r0.
    + apply map_get_none in Hnode. contradiction Hnode. apply Hkeys. now left.
Qed.


Lemma afm_created_has flat r :
  In r flat -> In (raw_id r) (map_keys (fold_left create flat [])).
Proof. intros Hin. apply afr_created_keys. right. now apply in_map. Qed.

End AdoptMore.

(** ** The version with a synthetic root *)

Module SynthMore.
Import SyntheticRoot SyntheticRootFacts.

Lemma sym_created_keys flat : forall (m : JsMap (NodeObj Ref)),
  map_keys (fold_left create flat m)
  = fold_left (fun acc k => if existsb (jsval_eqb k) acc then acc
                            else acc ++ [k])
              (map safeId flat) (map_keys m).
Proof.
  induction flat as [|raw flat IH]; intros m; cbn [fold_left map];
    [reflexivity|].
  rewrite IH. unfold create at 1. now rewrite map_set_keys_eq.
Qed.




Lemma sym_guard flat st raw :
  (forall k, In k (map_keys (nodeMap st)) <-> In k (map safeId flat)) ->
  truthy (parentOf raw) && map_has (nodeMap st) (parentOf raw)
  = negb (topLevel flat raw).
Proof.
  intros Hkeys. unfold topLevel. rewrite negb_involutive. f_equal.
  destruct (map_has (nodeMap st) (parentOf raw)) eqn:Hhas.
  - symmetry. apply syn_existsb_safeId, Hkeys. now apply map_has_in_keys.
  - destruct (existsb (fun r => jsval_eqb (safeId r) (parentOf raw)) flat)
      eqn:Hex; [|reflexivity].
    apply syn_existsb_safeId, Hkeys, map_has_in_keys in Hex. congruence.
Qed.

Lemma sym_link_children flat seen st raw :
  (forall k, In k (map_keys (nodeMap st)) <-> In k (map safeId flat)) ->
  In raw flat ->
  synthChildrenAre flat seen st ->
  synthChildrenAre flat (seen ++ [raw]) (link st raw).
Proof.
  intros Hkeys Hin [Hnodes Hroot].
  assert (Hnode : map_get (nodeMap st) (safeId raw) <> None).
  { apply map_get_in_keys, Hkeys. now apply in_map. }
  pose proof (sym_guard flat st raw Hkeys) as Hguard.
  unfold link. destruct (map_get (nodeMap st) (safeId raw)); [|congruence].
  rewrite Hguard. split.
  - intros p o. rewrite filter_app, map_app. cbn [filter].
    unfold synthLinkedUnder at 2.
    destruct (topLevel flat raw) eqn:Htop; cbn [negb nodeMap].
    + intros Ho. rewrite (Hnodes _ _ Ho).
      assert (Hno : truthy (parentOf raw) && jsval_eqb (parentOf raw) p
                    = false).
      { destruct (truthy (parentOf raw)) eqn:Ht; [|reflexivity]. cbn [andb].
        destruct (jsval_eqb_spec (parentOf raw) p) as [<-|]; [|reflexivity].
        cbn [andb negb] in Hguard. unfold map_has in Hguard.
        now rewrite Ho in Hguard. }
      rewrite Hno. cbn [map]. now rewrite app_nil_r.
    + apply andb_true_iff in Hguard as [Ht Hhas]. rewrite Ht. cbn [andb].
      rewrite map_update_get.
      destruct (jsval_eqb_spec (parentOf raw) p) as [<-|Hne].
      * unfold map_has in Hhas.
        destruct (map_get (nodeMap st) (parentOf raw)) as [parent|] eqn:Hp;
          [|discriminate].
        cbn [option_map]. intros [= <-].
        cbn [pushTo o_children map]. now rewrite (Hnodes _ _ Hp).
      * intros Ho. cbn [map]. rewrite app_nil_r. now apply Hnodes.
  - rewrite filter_app, map_app. cbn [filter].
    destruct (topLevel flat raw); cbn [negb syntheticRoot pushTo o_children map].
    + now rewrite Hroot.
    + now rewrite app_nil_r.
Qed.

Lemma sym_links_children flat rest : forall seen st,
  (forall k, In k (map_keys (nodeMap st)) <-> In k (map safeId flat)) ->
  incl rest flat ->
  synthChildrenAre flat seen st ->
  synthChildrenAre flat (seen ++ rest) (fold_left link rest st).
Proof.
  induction rest as [|raw rest IH]; intros seen st Hkeys Hincl Hst;
    cbn [fold_left].
  - now rewrite app_nil_r.
  - replace (seen ++ raw :: rest) with ((seen ++ [raw]) ++ rest)
      by (now rewrite <- app_assoc).
    apply IH.
    + intros k. rewrite syn_link_keys. apply Hkeys.
    + intros r Hr. apply Hincl. now right.
    + apply sym_link_children; [exact Hkeys| |exact Hst]. apply Hincl. now left.
Qed.

Lemma sym_initial_children flat : synthChildrenAre flat [] (initial flat).
Proof.
  split; [|reflexivity].
  intros p o Ho. cbn [initial nodeMap] in Ho. apply map_get_In in Ho.
  pose proof (syn_created_no_children flat) as Hall.
  rewrite Forall_forall in Hall. exact (Hall _ Ho).
Qed.

(** The objects once every record is linked. *)
Lemma sym_linked_children flat :
  synthChildrenAre flat flat (fold_left link flat (initial flat)).
Proof.
  apply (sym_links_children flat flat []).
  - apply syn_initial_keys.
  - apply incl_refl.
  - apply sym_initial_children.
Qed.

Lemma sym_pushed_keys ks : forall (o : NodeObj Ref),
  o_children (fold_left (fun root k => pushTo root (RNode k)) ks o)
  = o_children o ++ map RNode ks.
Proof.
  induction ks as [|k ks IH]; intros o; cbn [fold_left map].
  - now rewrite app_nil_r.
  - rewrite IH. cbn [pushTo o_children]. now rewrite <- app_assoc.
Qed.

Lemma sym_initial_keys_eq flat :
  map_keys (nodeMap (initial flat)) = firstKeys (map safeId flat).
Proof.
  cbn [initial nodeMap]. rewrite sym_created_keys, firstKeys_from.
  cbn [map_keys map app]. now apply filter_all.
Qed.

Lemma sym_linked_keys_eq flat :
  map_keys (nodeMap (fold_left link flat (initial flat)))
  = firstKeys (map safeId flat).
Proof. rewrite syn_links_keys. apply sym_initial_keys_eq. Qed.

Lemma sym_filter_nil_existsb {A : Type} (p : A -> bool) l :
  existsb p l = false <-> filter p l = [].
Proof.
  induction l as [|a l IH]; cbn; [tauto|].
  destruct (p a); cbn; [split; discriminate|exact IH].
Qed.

(** The children of the synthetic root in the result. *)
Lemma sym_built_root_children flat :
  o_children (syntheticRoot
                (fallback (fold_left link flat (initial flat))))
  = if existsb (topLevel flat) flat
    then map synthRef (filter (topLevel flat) flat)
    else map RNode (firstKeys (map safeId flat)).
Proof.
  destruct (sym_linked_children flat) as [_ Hroot].
  pose proof (sym_linked_keys_eq flat) as Hkeys.
  unfold fallback.
  set (st := fold_left link flat (initial flat)) in *.
  destruct (existsb (topLevel flat) flat) eqn:Hex.
  - assert (Hne : o_children (syntheticRoot st) <> []).
    { rewrite Hroot. intros Hnil. apply map_eq_nil in Hnil.
      apply sym_filter_nil_existsb in Hnil. congruence. }
    destruct (o_children (syntheticRoot st)) as [|r rs] eqn:Hc; [congruence|].
    cbn [length Nat.eqb andb]. now rewrite Hc.
  - assert (Hnil : o_children (syntheticRoot st) = []).
    { rewrite Hroot. apply sym_filter_nil_existsb in Hex. now rewrite Hex. }
    rewrite Hnil. cbn [length Nat.eqb andb]. unfold map_size.
    rewrite <- Hkeys.
    destruct (nodeMap st) as [|kv m] eqn:Hm.
    + cbn. now rewrite Hnil.
    + cbn [length Nat.ltb Nat.leb syntheticRoot].
      rewrite sym_pushed_keys, Hnil. reflexivity.
Qed.


(** What the result holds. *)
Lemma sym_built flat d :
  buildTreeFromFlatList flat = Returned d ->
  objects d = fallback (fold_left link flat (initial flat))
  /\ root d = RSynthetic.
Proof. unfold buildTreeFromFlatList. intros [= <-]. now split. Qed.




End SynthMore.

(** ** Reconstruction: further properties *)










(** X9.  The version that adopts a root takes the first record, in input
    order, whose normalised parent id is falsy; when there is none, it
    takes the first record. *)
Theorem adopted_root_is_first_parentless :
  forall (flat : list RawNode) d,
    AdoptFirstRoot.buildTreeFromFlatList flat = Returned d ->
    root d = match find adoptParentless flat with
             | Some r => raw_id r
             | None => hd JUndefined (map raw_id flat)
             end.
Proof.
  intros flat d. unfold AdoptFirstRoot.buildTreeFromFlatList.
  pose proof (AdoptMore.afm_links_root flat (fold_left AdoptFirstRoot.create flat [], None))
    as Hroot.
  pose proof (AdoptFirstRootFacts.afr_links_keys flat
                (fold_left AdoptFirstRoot.create flat [], None)) as Hkeys.
  destruct (fold_left AdoptFirstRoot.link flat
              (fold_left AdoptFirstRoot.create flat [], None)) as [m r].
  cbn [fst snd] in *.
  rewrite Hroot by (intros r0 Hr0; now apply AdoptMore.afm_created_has).
  destruct (find adoptParentless flat) as [r0|]; cbn [option_map].
  - now intros [= <-].
  - rewrite Hkeys, AdoptMore.afm_created_keys, firstKeys_from.
    cbn [map_keys map app].
    rewrite filter_all by reflexivity.
    destruct flat as [|raw flat]; cbn [map firstKeys hd]; [discriminate|].
    now intros [= <-].
Qed.

Lemma adopted_root_is_first_parentless_witness :
  let flat := [record (JStr "a") (JStr "x"); record (JStr "b") JNull;
               record (JStr "c") JNull] in
  exists d,
    AdoptFirstRoot.buildTreeFromFlatList flat = Returned d
    /\ root d = JStr "b".
Proof.
  intros flat. eexists. split; [reflexivity|].
  exact (adopted_root_is_first_parentless flat _ eq_refl).
Defined.



(** X11.  In the version with a synthetic root the root is childless
    exactly when the input is empty: the fallback sees to it that a
    non-empty input always shows something under the root. *)
Theorem synthetic_root_childless_iff_empty :
  forall flat : list RawNode,
    exists d,
      SyntheticRoot.buildTreeFromFlatList flat = Returned d
      /\ (o_children (SyntheticRoot.syntheticRoot (objects d)) = []
          <-> flat = []).
Proof.
  intros flat. eexists. split; [reflexivity|]. cbn [objects].
  rewrite SynthMore.sym_built_root_children.
  destruct (existsb (SyntheticRoot.topLevel flat) flat) eqn:Hex.
  - split.
    + intros Hnil. apply map_eq_nil in Hnil.
      apply SynthMore.sym_filter_nil_existsb in Hnil. congruence.
    + intros ->. discriminate Hex.
  - destruct flat as [|raw flat]; [tauto|].
    cbn [map firstKeys]. split; discriminate.
Qed.



(** * Text extraction: properties *)

Lemma visible_app a b : visible (a ++ b) = visible a || visible b.
Proof. apply existsb_app. Qed.

Lemma visible_rev s : visible (rev s) = visible s.
Proof.
  induction s as [|c s IH]; [reflexivity|].
  cbn [rev]. rewrite visible_app, IH. cbn. now rewrite orb_false_r, orb_comm.
Qed.

Lemma nonEmpty_rev s : nonEmpty (rev s) = nonEmpty s.
Proof.
  destruct s as [|c s]; [reflexivity|].
  cbn [rev nonEmpty]. now destruct (rev s).
Qed.

Lemma trimStart_nonEmpty s : nonEmpty (trimStart s) = visible s.
Proof.
  induction s as [|c s IH]; [reflexivity|].
  cbn [trimStart visible existsb]. fold (visible s).
  now destruct (isWhiteSpace c).
Qed.

Lemma trimStart_visible s : visible (trimStart s) = visible s.
Proof.
  induction s as [|c s IH]; [reflexivity|].
  cbn [trimStart]. destruct (isWhiteSpace c) eqn:Hc; [|reflexivity].
  rewrite IH. cbn [visible existsb]. now rewrite Hc.
Qed.

(** The test [s.trim()] of the source holds exactly of the texts with a
    code unit that is not white space. *)
Lemma trim_nonEmpty s : nonEmpty (trim s) = visible s.
Proof.
  unfold trim, trimEnd.
  now rewrite nonEmpty_rev, trimStart_nonEmpty, visible_rev, trimStart_visible.
Qed.

Lemma pageBlock_visible i t : visible (pageBlock i t) = true.
Proof.
  unfold pageBlock. now rewrite !visible_app.
Qed.

Lemma blocksOf_one pdf i :
  blocksOf pdf [i]
  = if readable pdf i then pageBlock i (pageTextOf pdf i) else [].
Proof.
  unfold blocksOf. cbn [filter].
  destruct (readable pdf i); cbn [flat_map]; [apply app_nil_r|reflexivity].
Qed.

Lemma blocksOf_app pdf a b :
  blocksOf pdf (a ++ b) = blocksOf pdf a ++ blocksOf pdf b.
Proof. unfold blocksOf. now rewrite filter_app, flat_map_app. Qed.

Lemma blocksOf_visible pdf pages :
  visible (blocksOf pdf pages) = existsb (readable pdf) pages.
Proof.
  induction pages as [|i pages IH]; [reflexivity|].
  change (i :: pages) with ([i] ++ pages).
  rewrite blocksOf_app, visible_app, IH. cbn [app existsb]. f_equal.
  unfold blocksOf. cbn [filter].
  destruct (readable pdf i); [|reflexivity].
  cbn [flat_map]. now rewrite visible_app, pageBlock_visible.
Qed.

Module SequentialFacts.
Import Sequential.

Lemma seq_readPage pdf fullText i :
  readPage pdf fullText i = fullText ++ blocksOf pdf [i].
Proof.
  rewrite blocksOf_one. unfold readPage, readable, pageTextOf.
  destruct (getPage pdf i) as [|items].
  - cbn [visible existsb]. symmetry. apply app_nil_r.
  - cbn zeta. rewrite trim_nonEmpty.
    destruct (visible (join [32] (map strOr items)));
      [reflexivity|symmetry; apply app_nil_r].
Qed.

Lemma seq_loop pdf pages fullText :
  fold_left (readPage pdf) pages fullText = fullText ++ blocksOf pdf pages.
Proof.
  revert fullText. induction pages as [|i pages IH]; intros fullText.
  - cbn [filter visible existsb flat_map]. symmetry. apply app_nil_r.
  - cbn [fold_left]. rewrite IH, seq_readPage.
    change (i :: pages) with ([i] ++ pages).
    now rewrite blocksOf_app, app_assoc.
Qed.

End SequentialFacts.

Module ParallelFacts.
Import Parallel.

Lemma par_insert_least p l :
  Forall (fun q => (index p <= index q)%nat) l -> insertByIndex p l = p :: l.
Proof.
  intros Hall. destruct l as [|q rest]; [reflexivity|].
  cbn [insertByIndex]. apply Forall_inv in Hall.
  apply Nat.leb_le in Hall. now rewrite Hall.
Qed.

(** Page results come in page order, so sorting them changes nothing. *)
Lemma par_sort_pages pdf start len :
  sortByIndex (map (pagePromise pdf) (seq start len))
  = map (pagePromise pdf) (seq start len).
Proof.
  revert start. induction len as [|len IH]; intros start; [reflexivity|].
  cbn [seq map sortByIndex fold_right].
  fold (sortByIndex (map (pagePromise pdf) (seq (S start) len))).
  rewrite IH. apply par_insert_least.
  apply Forall_forall. intros q Hq. apply in_map_iff in Hq as (j & <- & Hj).
  apply in_seq in Hj.
  assert (Hidx : forall k, index (pagePromise pdf k) = k).
  { intros k. unfold pagePromise. now destruct (getPage pdf k). }
  rewrite !Hidx. lia.
Qed.

Lemma par_appendPage pdf fullText i :
  appendPage fullText (pagePromise pdf i) = fullText ++ blocksOf pdf [i].
Proof.
  rewrite blocksOf_one.
  unfold appendPage, pagePromise, readable, pageTextOf.
  rewrite trim_nonEmpty.
  destruct (getPage pdf i) as [|items]; cbn [text index].
  - cbn [visible existsb]. symmetry. apply app_nil_r.
  - destruct (visible (join [32] (map strOr items)));
      [reflexivity|symmetry; apply app_nil_r].
Qed.

Lemma par_loop pdf pages fullText :
  fold_left appendPage (map (pagePromise pdf) pages) fullText
  = fullText ++ blocksOf pdf pages.
Proof.
  revert fullText. induction pages as [|i pages IH]; intros fullText.
  - cbn [filter visible existsb flat_map]. symmetry. apply app_nil_r.
  - cbn [map fold_left]. rewrite IH, par_appendPage.
    change (i :: pages) with ([i] ++ pages).
    now rewrite blocksOf_app, app_assoc.
Qed.

End ParallelFacts.

(** What each version makes of a document that opens. *)
Lemma sequential_result pdf :
  Sequential.extractTextFromPDF true (Loaded pdf)
  = let pages := seq 1 (Nat.min (numPages pdf) 20) in
    if existsb (readable pdf) pages then Returned (blocksOf pdf pages)
    else Thrown "Could not extract any text from the PDF. It might be scanned or image-based.".
Proof.
  unfold Sequential.extractTextFromPDF, Sequential.attempt. cbn [negb].
  cbn zeta. rewrite SequentialFacts.seq_loop. cbn [app].
  rewrite trim_nonEmpty, blocksOf_visible.
  now destruct (existsb (readable pdf) (seq 1 (Nat.min (numPages pdf) 20))).
Qed.

Lemma parallel_result pdf :
  Parallel.extractionPromise true (Loaded pdf)
  = let pages := seq 1 (Nat.min (numPages pdf) 15) in
    if existsb (readable pdf) pages then Returned (blocksOf pdf pages)
    else Thrown "Could not extract text. The PDF might be a scanned image.".
Proof.
  unfold Parallel.extractionPromise, Parallel.attempt. cbn [negb].
  cbn zeta. rewrite ParallelFacts.par_sort_pages, ParallelFacts.par_loop.
  cbn [app]. rewrite trim_nonEmpty, blocksOf_visible.
  now destruct (existsb (readable pdf) (seq 1 (Nat.min (numPages pdf) 15))).
Qed.

Lemma blocksOf_ext pdf pdf' pages :
  (forall i, In i pages -> getPage pdf i = getPage pdf' i) ->
  blocksOf pdf pages = blocksOf pdf' pages.
Proof.
  induction pages as [|i pages IH]; intros Hsame; [reflexivity|].
  change (i :: pages) with ([i] ++ pages). rewrite !blocksOf_app.
  rewrite IH by (intros j Hj; apply Hsame; now right).
  f_equal. rewrite !blocksOf_one. unfold readable, pageTextOf.
  now rewrite (Hsame i (or_introl eq_refl)).
Qed.

Lemma readable_ext pdf pdf' pages :
  (forall i, In i pages -> getPage pdf i = getPage pdf' i) ->
  existsb (readable pdf) pages = existsb (readable pdf') pages.
Proof.
  induction pages as [|i pages IH]; intros Hsame; [reflexivity|].
  cbn [existsb]. rewrite IH by (intros j Hj; apply Hsame; now right).
  f_equal. unfold readable, pageTextOf.
  now rewrite (Hsame i (or_introl eq_refl)).
Qed.

Lemma agreeUpTo_pages n pdf pdf' :
  agreeUpTo n pdf pdf' ->
  forall i, In i (seq 1 (Nat.min (numPages pdf) n)) ->
            getPage pdf i = getPage pdf' i.
Proof.
  intros [_ Hsame] i Hi. apply in_seq in Hi. apply Hsame. lia.
Qed.

(** X13.  The sequential extraction of a document that opens returns the
    blocks of the pages, among the first twenty, that can be read and
    hold a code unit that is not white space, in page order and under
    their own page numbers; it fails, with the message about scanned
    documents, exactly when there is no such page.  Pages that fail or are
    blank leave no trace.  The parallel version does the same with the
    first fifteen pages. *)
Theorem extraction_keeps_readable_pages :
  forall pdf : PDFDocumentProxy,
    Sequential.extractTextFromPDF true (Loaded pdf)
    = (let pages := filter (readable pdf)
                      (seq 1 (Nat.min (numPages pdf) 20)) in
       match pages with
       | [] => Thrown "Could not extract any text from the PDF. It might be scanned or image-based."
       | _ :: _ =>
         Returned (flat_map (fun i => pageBlock i (pageTextOf pdf i)) pages)
       end)
    /\ Parallel.extractTextFromPDF true true (Loaded pdf)
       = (let pages := filter (readable pdf)
                         (seq 1 (Nat.min (numPages pdf) 15)) in
          match pages with
          | [] => Thrown "Could not extract text. The PDF might be a scanned image."
          | _ :: _ =>
            Returned (flat_map (fun i => pageBlock i (pageTextOf pdf i)) pages)
          end).
Proof.
  intros pdf. split.
  - rewrite sequential_result. cbn zeta. unfold blocksOf.
    destruct (existsb (readable pdf) (seq 1 (Nat.min (numPages pdf) 20)))
      eqn:Hex.
    + apply existsb_exists in Hex as (i & Hi & Hr).
      assert (Hin : In i (filter (readable pdf)
                            (seq 1 (Nat.min (numPages pdf) 20))))
        by (apply filter_In; now split).
      now destruct (filter (readable pdf)
                      (seq 1 (Nat.min (numPages pdf) 20))).
    + destruct (filter (readable pdf) (seq 1 (Nat.min (numPages pdf) 20)))
        as [|i rest] eqn:Hf; [reflexivity|].
      assert (Hin : In i (filter (readable pdf)
                            (seq 1 (Nat.min (numPages pdf) 20))))
        by (rewrite Hf; now left).
      apply filter_In in Hin as [Hi Hr].
      assert (existsb (readable pdf) (seq 1 (Nat.min (numPages pdf) 20))
              = true) by (apply existsb_exists; now exists i).
      congruence.
  - unfold Parallel.extractTextFromPDF. rewrite parallel_result.
    cbn zeta. unfold blocksOf.
    destruct (existsb (readable pdf) (seq 1 (Nat.min (numPages pdf) 15)))
      eqn:Hex.
    + apply existsb_exists in Hex as (i & Hi & Hr).
      assert (Hin : In i (filter (readable pdf)
                            (seq 1 (Nat.min (numPages pdf) 15))))
        by (apply filter_In; now split).
      now destruct (filter (readable pdf)
                      (seq 1 (Nat.min (numPages pdf) 15))).
    + destruct (filter (readable pdf) (seq 1 (Nat.min (numPages pdf) 15)))
        as [|i rest] eqn:Hf; [reflexivity|].
      assert (Hin : In i (filter (readable pdf)
                            (seq 1 (Nat.min (numPages pdf) 15))))
        by (rewrite Hf; now left).
      apply filter_In in Hin as [Hi Hr].
      assert (existsb (readable pdf) (seq 1 (Nat.min (numPages pdf) 15))
              = true) by (apply existsb_exists; now exists i).
      congruence.
Qed.

(** X14.  What lies beyond the page limit is never read: two documents
    with the same pages up to the limit (twenty pages in the sequential
    version, fifteen in the parallel one) give the same result, whatever
    their other pages and their page counts. *)
Theorem pages_beyond_limit_ignored :
  forall (pdf pdf' : PDFDocumentProxy) (lib : bool),
    (agreeUpTo 20 pdf pdf' ->
     Sequential.extractTextFromPDF lib (Loaded pdf)
     = Sequential.extractTextFromPDF lib (Loaded pdf'))
    /\ (agreeUpTo 15 pdf pdf' ->
        forall first,
          Parallel.extractTextFromPDF first lib (Loaded pdf)
          = Parallel.extractTextFromPDF first lib (Loaded pdf')).
Proof.
  intros pdf pdf' lib. split.
  - intros Hsame. destruct lib; [|reflexivity].
    rewrite !sequential_result. cbn zeta.
    pose proof (agreeUpTo_pages _ _ _ Hsame) as Hpages.
    destruct Hsame as [<- _].
    now rewrite (readable_ext _ _ _ Hpages), (blocksOf_ext _ _ _ Hpages).
  - intros Hsame first. destruct first; [|reflexivity].
    unfold Parallel.extractTextFromPDF. destruct lib; [|reflexivity].
    rewrite !parallel_result. cbn zeta.
    pose proof (agreeUpTo_pages _ _ _ Hsame) as Hpages.
    destruct Hsame as [<- _].
    now rewrite (readable_ext _ _ _ Hpages), (blocksOf_ext _ _ _ Hpages).
Qed.

Lemma pages_beyond_limit_ignored_witness :
  let page := fun i : nat =>
                if (i =? 21)%nat then PageFailed
                else PageItems [Some (units "text")] in
  let page' := fun i : nat => PageItems [Some (units "text")] in
  let pdf := {| numPages := 21; getPage := page |} in
  let pdf' := {| numPages := 30; getPage := page' |} in
  agreeUpTo 20 pdf pdf'
  /\ Sequential.extractTextFromPDF true (Loaded pdf)
     = Sequential.extractTextFromPDF true (Loaded pdf').
Proof.
  intros page page' pdf pdf'.
  assert (Hsame : agreeUpTo 20 pdf pdf').
  { split; [reflexivity|]. intros i Hi. cbn in Hi. cbn [getPage pdf pdf'].
    unfold page, page'.
    destruct (i =? 21)%nat eqn:Hi21; [|reflexivity].
    apply Nat.eqb_eq in Hi21. lia. }
  split; [exact Hsame|].
  exact (proj1 (pages_beyond_limit_ignored pdf pdf' true) Hsame).
Defined.

(** X15.  On a document of at most fifteen pages, the parallel version,
    when it is not timed out, returns exactly the text that the
    sequential version returns, and fails exactly when it fails. *)
Theorem parallel_agrees_with_sequential :
  forall pdf : PDFDocumentProxy,
    (numPages pdf <= 15)%nat ->
    forall fullText,
      Parallel.extractTextFromPDF true true (Loaded pdf) = Returned fullText
      <-> Sequential.extractTextFromPDF true (Loaded pdf) = Returned fullText.
Proof.
  intros pdf Hn fullText. unfold Parallel.extractTextFromPDF.
  rewrite parallel_result, sequential_result. cbn zeta.
  replace (Nat.min (numPages pdf) 20) with (numPages pdf) by lia.
  replace (Nat.min (numPages pdf) 15) with (numPages pdf) by lia.
  destruct (existsb (readable pdf) (seq 1 (numPages pdf))); [tauto|].
  split; discriminate.
Qed.

Lemma parallel_agrees_with_sequential_witness :
  let pdf := {| numPages := 2;
                getPage := fun i : nat =>
                  if (i =? 1)%nat then PageFailed
                  else PageItems [Some (units "a"); None; Some (units "b")] |} in
  (numPages pdf <= 15)%nat
  /\ exists fullText,
       Sequential.extractTextFromPDF true (Loaded pdf) = Returned fullText
       /\ Parallel.extractTextFromPDF true true (Loaded pdf)
          = Returned fullText.
Proof.
  intros pdf.
  assert (Hn : (numPages pdf <= 15)%nat) by (cbn; lia).
  split; [exact Hn|]. eexists. split; [reflexivity|].
  exact (proj2 (parallel_agrees_with_sequential pdf Hn _) eq_refl).
Defined.

(** * The service call: properties *)

Lemma js_or_truthy a s : s <> "" -> truthy (js_or a (JStr s)) = true.
Proof.
  intros Hs. unfold js_or. destruct (truthy a) eqn:Ha; [exact Ha|].
  cbn. destruct (String.eqb_spec s ""); [contradiction|reflexivity].
Qed.

Lemma string_of_uint_nonempty d : NilZero.string_of_uint d <> "".
Proof. destruct d; cbn; discriminate. Qed.

Lemma js_String_truthy v : truthy v = true -> js_String v <> "".
Proof.
  destruct v as [| |[|]|n|s]; cbn; try discriminate.
  - intros _. destruct (Z.to_int n); cbn;
      [apply string_of_uint_nonempty|discriminate].
  - destruct (String.eqb_spec s ""); [discriminate|now intros _].
Qed.

Lemma messageOr_nonempty dflt e : dflt <> "" -> messageOr dflt e <> "".
Proof.
  intros Hd. unfold messageOr. apply js_String_truthy.
  now apply js_or_truthy.
Qed.

Lemma nonEmpty_true (s : jstext) : nonEmpty s = true <-> s <> [].
Proof. destruct s; cbn; split; congruence. Qed.

Module ServiceFacts.

(** What a successful call went through, first version. *)
Lemma afs_returned parse apiKey api d :
  AdoptFirstRootService.generateMindMap parse apiKey api = Returned d ->
  truthy apiKey = true
  /\ exists text data nodes treeData,
      api = ApiResponse (Some text) /\ text <> []
      /\ parse text = Parsed data /\ d_nodes data = Some nodes
      /\ AdoptFirstRoot.buildTreeFromFlatList nodes = Returned treeData
      /\ d = assignTexts treeData data.
Proof.
  unfold AdoptFirstRootService.generateMindMap,
    AdoptFirstRootService.attempt.
  destruct (truthy apiKey); cbn [negb]; [|discriminate].
  destruct api as [e|[text|]]; try discriminate.
  destruct (nonEmpty text) eqn:Htext; cbn [negb]; [|discriminate].
  destruct (parse text) as [e|m|data] eqn:Hparse; try discriminate.
  destruct (d_nodes data) as [nodes|] eqn:Hnodes; [|discriminate].
  destruct (AdoptFirstRoot.buildTreeFromFlatList nodes) as [treeData|m]
    eqn:Hbuild; [|discriminate].
  intros [= <-]. split; [reflexivity|].
  exists text, data, nodes, treeData.
  repeat split; try assumption. now apply nonEmpty_true.
Qed.

(** What a successful call went through, second version. *)
Lemma sys_returned parse apiKey api d :
  SyntheticRootService.generateMindMap parse apiKey api = Returned d ->
  truthy apiKey = true
  /\ exists text data nodes treeData,
      api = ApiResponse (Some text) /\ text <> []
      /\ parse (cleanText text) = Parsed data /\ d_nodes data = Some nodes
      /\ SyntheticRoot.buildTreeFromFlatList nodes = Returned treeData
      /\ d = assignTexts treeData data.
Proof.
  unfold SyntheticRootService.generateMindMap,
    SyntheticRootService.attempt.
  destruct (truthy apiKey); cbn [negb]; [|discriminate].
  destruct api as [e|[text|]]; try discriminate.
  destruct (nonEmpty text) eqn:Htext; cbn [negb]; [|discriminate].
  destruct (parse (cleanText text)) as [e|m|data] eqn:Hparse;
    try discriminate.
  destruct (d_nodes data) as [nodes|] eqn:Hnodes; [|discriminate].
  destruct (SyntheticRoot.buildTreeFromFlatList nodes) as [treeData|m]
    eqn:Hbuild; [|discriminate].
  intros [= <-]. split; [reflexivity|].
  exists text, data, nodes, treeData.
  repeat split; try assumption. now apply nonEmpty_true.
Qed.

(** Every failure past the key check goes through the [catch] clause. *)
Lemma afs_thrown parse apiKey api message :
  AdoptFirstRootService.generateMindMap parse apiKey api = Thrown message ->
  (truthy apiKey = false
   /\ message
      = "API_KEY is missing. Please ensure it is set in your environment.")
  \/ (truthy apiKey = true
      /\ exists e, message = failedToGenerate e).
Proof.
  unfold AdoptFirstRootService.generateMindMap.
  destruct (truthy apiKey); cbn [negb].
  - destruct (AdoptFirstRootService.attempt parse api) as [e|d];
      [|discriminate].
    intros [= <-]. right. split; [reflexivity|]. now exists e.
  - intros [= <-]. now left.
Qed.

Lemma sys_thrown parse apiKey api message :
  SyntheticRootService.generateMindMap parse apiKey api = Thrown message ->
  (truthy apiKey = false
   /\ message
      = "API_KEY is missing. Please ensure it is set in your environment.")
  \/ (truthy apiKey = true
      /\ exists e, message = failedToGenerate e).
Proof.
  unfold SyntheticRootService.generateMindMap.
  destruct (truthy apiKey); cbn [negb].
  - destruct (SyntheticRootService.attempt parse api) as [e|d];
      [|discriminate].
    intros [= <-]. right. split; [reflexivity|]. now exists e.
  - intros [= <-]. now left.
Qed.

End ServiceFacts.

(** ** Removing the fence *)

Lemma trimStart_all ws s :
  forallb isWhiteSpace ws = true -> trimStart (ws ++ s) = trimStart s.
Proof.
  induction ws as [|c ws IH]; [reflexivity|].
  cbn [forallb app trimStart]. intros Hws.
  apply andb_true_iff in Hws as [-> Hws]. now apply IH.
Qed.

Lemma forallb_rev {A : Type} (f : A -> bool) l :
  forallb f (rev l) = forallb f l.
Proof.
  induction l as [|a l IH]; [reflexivity|].
  cbn [rev forallb]. rewrite forallb_app, IH. cbn. 
  now rewrite andb_true_r, andb_comm.
Qed.

Lemma trimEnd_all s ws :
  forallb isWhiteSpace ws = true -> trimEnd (s ++ ws) = trimEnd s.
Proof.
  intros Hws. unfold trimEnd. rewrite rev_app_distr.
  rewrite trimStart_all; [reflexivity|]. now rewrite forallb_rev.
Qed.

Lemma startsWith_app prefix s : startsWith prefix (prefix ++ s) = true.
Proof.
  induction prefix as [|a prefix IH]; [reflexivity|].
  cbn [app startsWith]. now rewrite Z.eqb_refl, IH.
Qed.

Lemma endsWith_app suffix s : endsWith suffix (s ++ suffix) = true.
Proof.
  unfold endsWith. rewrite rev_app_distr. apply startsWith_app.
Qed.

Lemma startsWith_longer p q s :
  startsWith (p ++ q) s = true -> startsWith p s = true.
Proof.
  revert s. induction p as [|a p IH]; intros s; [reflexivity|].
  cbn [app startsWith]. destruct s as [|b s]; [discriminate|].
  intros H. apply andb_true_iff in H as [-> H]. now apply IH.
Qed.

Lemma removeStart_app prefix s :
  removeStart prefix (prefix ++ s) = trimStart s.
Proof.
  unfold removeStart. rewrite startsWith_app.
  now rewrite skipn_app, skipn_all, Nat.sub_diag.
Qed.

Lemma removeEnd_app suffix s :
  removeEnd suffix (s ++ suffix) = trimEnd s.
Proof.
  unfold removeEnd. rewrite endsWith_app. rewrite length_app.
  replace (length s + length suffix - length suffix)%nat with (length s)
    by lia.
  now rewrite firstn_app, firstn_all, Nat.sub_diag, app_nil_r.
Qed.


(** X16.  A call fails either before anything is tried, with the message
    about the missing key, and then exactly when the key is falsy, or
    with a message that starts with [Failed to generate mind map: ] and
    goes on with a reason that is never empty. *)
Theorem generation_failures_are_prefixed :
  forall (parse : jstext -> ParseResult) apiKey api message,
    AdoptFirstRootService.generateMindMap parse apiKey api = Thrown message
    \/ SyntheticRootService.generateMindMap parse apiKey api
       = Thrown message ->
    (truthy apiKey = false
     /\ message
        = "API_KEY is missing. Please ensure it is set in your environment.")
    \/ (truthy apiKey = true
        /\ exists reason,
            reason <> ""
            /\ message
               = ("Failed to generate mind map: " ++ reason)%string).
Proof.
  intros parse apiKey api message Hfail.
  assert (Hcases :
            (truthy apiKey = false
             /\ message
                = "API_KEY is missing. Please ensure it is set in your environment.")
            \/ (truthy apiKey = true
                /\ exists e, message = failedToGenerate e)).
  { destruct Hfail as [H|H];
      [now apply ServiceFacts.afs_thrown in H
      |now apply ServiceFacts.sys_thrown in H]. }
  destruct Hcases as [Hkey|[Hkey [e ->]]]; [now left|right].
  split; [exact Hkey|].
  exists (messageOr "Unknown AI error" e). split; [|reflexivity].
  now apply messageOr_nonempty.
Qed.

Lemma generation_failures_are_prefixed_witness :
  let parse := fun _ : jstext =>
                 Parsed {| d_nodes := Some [];
                           d_markdownSummary := JUndefined;
                           d_researchReport := JUndefined |} in
  let api := ApiResponse (Some (units "{}")) in
  AdoptFirstRootService.generateMindMap parse (JStr "key") api
  = Thrown "Failed to generate mind map: The mind map returned by AI was empty."
  /\ exists reason,
      reason <> ""
      /\ "Failed to generate mind map: The mind map returned by AI was empty."
         = ("Failed to generate mind map: " ++ reason)%string.
Proof.
  intros parse api. split; [reflexivity|].
  destruct (generation_failures_are_prefixed parse (JStr "key") api _
              (or_introl eq_refl)) as [[Hkey _]|[_ Hreason]];
    [discriminate Hkey|exact Hreason].
Defined.


(** X18.  What a successful call returns is filled in: the summary and
    the report are truthy (the response's when they are, a fixed
    apology otherwise), and the root is a node of the reconstruction, a
    key of the map in the first version, the synthetic root in the
    second. *)
Theorem generated_data_is_filled_in :
  forall (parse : jstext -> ParseResult) apiKey api,
    (forall d,
        AdoptFirstRootService.generateMindMap parse apiKey api = Returned d ->
        truthy (g_markdownSummary d) = true
        /\ truthy (g_researchReport d) = true
        /\ In (g_root d) (map_keys (g_objects d)))
    /\ (forall d,
           SyntheticRootService.generateMindMap parse apiKey api
           = Returned d ->
           truthy (g_markdownSummary d) = true
           /\ truthy (g_researchReport d) = true
           /\ g_root d = SyntheticRoot.RSynthetic).
Proof.
  intros parse apiKey api. split; intros d Hd.
  - apply ServiceFacts.afs_returned in Hd
      as (_ & text & data & nodes & treeData & _ & _ & _ & _ & Hbuild & ->).
    cbn [assignTexts g_markdownSummary g_researchReport g_root g_objects].
    repeat split; try (apply js_or_truthy; discriminate).
    assert (Hne : nodes <> []) by (intros ->; discriminate Hbuild).
    destruct (AdoptFirstRootFacts.afr_build_nonempty nodes Hne)
      as (d0 & Hd0 & Hroot).
    congruence.
  - apply ServiceFacts.sys_returned in Hd
      as (_ & text & data & nodes & treeData & _ & _ & _ & _ & Hbuild & ->).
    cbn [assignTexts g_markdownSummary g_researchReport g_root g_objects].
    repeat split; try (apply js_or_truthy; discriminate).
    now destruct (SynthMore.sym_built _ _ Hbuild) as [_ ->].
Qed.

Lemma generated_data_is_filled_in_witness :
  let parse := fun _ : jstext =>
                 Parsed {| d_nodes := Some [introRecord];
                           d_markdownSummary := JStr "";
                           d_researchReport := JStr "report" |} in
  let api := ApiResponse (Some (units "{}")) in
  exists d,
    SyntheticRootService.generateMindMap parse (JStr "key") api = Returned d
    /\ truthy (g_markdownSummary d) = true
    /\ g_researchReport d = JStr "report".
Proof.
  intros parse api. eexists. split; [reflexivity|]. split; [|reflexivity].
  exact (proj1 (proj2 (generated_data_is_filled_in parse (JStr "key") api)
                  _ eq_refl)).
Defined.

Lemma trimStart_length s : (length (trimStart s) <= length s)%nat.
Proof.
  induction s as [|c s IH]; [reflexivity|].
  cbn [trimStart]. destruct (isWhiteSpace c); cbn [length]; lia.
Qed.

Lemma trimEnd_length s : (length (trimEnd s) <= length s)%nat.
Proof.
  unfold trimEnd. rewrite length_rev.
  etransitivity; [apply trimStart_length|]. now rewrite length_rev.
Qed.

Lemma trimStart_same_length s :
  length (trimStart s) = length s -> trimStart s = s.
Proof.
  destruct s as [|c s]; [reflexivity|]. cbn [trimStart].
  destruct (isWhiteSpace c); [|reflexivity].
  pose proof (trimStart_length s). cbn [length]. lia.
Qed.

(** A text that [trim] leaves alone has no white space at either end. *)
Lemma trim_fixed s : trim s = s -> trimStart s = s /\ trimEnd s = s.
Proof.
  intros Hfix.
  assert (Hstart : trimStart s = s).
  { apply trimStart_same_length.
    pose proof (trimStart_length s).
    pose proof (trimEnd_length (trimStart s)).
    unfold trim in Hfix. rewrite Hfix in *. lia. }
  split; [exact Hstart|]. unfold trim in Hfix. now rewrite Hstart in Hfix.
Qed.

(** X19.  Removing the fence: a response that wraps its text between
    [```json] and [```], with any white space inside the fence, is
    parsed as the text alone, provided the text has no white space at
    either end and does not start with a backquote. *)
Theorem fenced_text_is_unwrapped :
  forall ws1 ws2 body : jstext,
    forallb isWhiteSpace ws1 = true ->
    forallb isWhiteSpace ws2 = true ->
    trim body = body ->
    startsWith [96] body = false ->
    cleanText (units "```json" ++ ws1 ++ body ++ ws2 ++ units "```") = body.
Proof.
  intros ws1 ws2 body Hws1 Hws2 Htrim Htick.
  apply trim_fixed in Htrim as [Hstart Hend].
  unfold cleanText. rewrite removeStart_app, trimStart_all by exact Hws1.
  destruct body as [|c body].
  - cbn [app]. rewrite trimStart_all by exact Hws2. reflexivity.
  - assert (Hc : isWhiteSpace c = false).
    { cbn [trimStart] in Hstart. destruct (isWhiteSpace c); [|reflexivity].
      pose proof (trimStart_length body) as Hlen.
      rewrite Hstart in Hlen. cbn [length] in Hlen. lia. }
    cbn [app trimStart]. rewrite Hc.
    assert (Hnot : removeStart (units "```")
                     (c :: body ++ ws2 ++ units "```")
                   = c :: body ++ ws2 ++ units "```").
    { unfold removeStart. cbn [startsWith] in Htick.
      rewrite andb_true_r in Htick.
      change (units "```") with [96; 96; 96] at 1.
      cbn [startsWith]. now rewrite Htick. }
    rewrite Hnot.
    change (c :: body ++ ws2 ++ units "```")
      with ((c :: body) ++ ws2 ++ units "```").
    rewrite app_assoc, removeEnd_app, trimEnd_all by exact Hws2.
    exact Hend.
Qed.

Lemma fenced_text_is_unwrapped_witness :
  cleanText (units "```json" ++ [10] ++ units "{}" ++ [32; 10] ++ units "```")
  = units "{}".
Proof.
  apply (fenced_text_is_unwrapped [10] [32; 10] (units "{}"));
    reflexivity.
Defined.

(** X20.  A response that neither starts nor ends with a fence is parsed
    as it is. *)
Theorem unfenced_text_is_kept :
  forall text : jstext,
    startsWith (units "```") text = false ->
    endsWith (units "```") text = false ->
    cleanText text = text.
Proof.
  intros text Hstart Hend. unfold cleanText.
  assert (Hjson : removeStart (units "```json") text = text).
  { unfold removeStart.
    destruct (startsWith (units "```json") text) eqn:Hj; [|reflexivity].
    change (units "```json") with (units "```" ++ units "json") in Hj.
    apply startsWith_longer in Hj. congruence. }
  rewrite Hjson. unfold removeStart. rewrite Hstart.
  unfold removeEnd. now rewrite Hend.
Qed.

Lemma unfenced_text_is_kept_witness :
  cleanText (units " {} ") = units " {} ".
Proof.
  apply (unfenced_text_is_kept (units " {} ")); reflexivity.
Defined.

(** * The outline: properties *)

Lemma depthsFrom_S t : forall d, depthsFrom (S d) t = map S (depthsFrom d t).
Proof.
  induction t as [i l su q pg cs w h IH] using MindMapNode_Forall_ind.
  intros d. cbn [depthsFrom children map]. f_equal.
  induction IH as [|c cs Hc _ IHcs]; [reflexivity|].
  cbn [flat_map]. now rewrite map_app, <- IHcs, <- (Hc (S d)).
Qed.

Lemma depthsFrom_children d cs :
  flat_map (depthsFrom (S d)) cs = map S (flat_map (depthsFrom d) cs).
Proof.
  induction cs as [|c cs IH]; [reflexivity|].
  cbn [flat_map]. now rewrite map_app, <- IH, depthsFrom_S.
Qed.

Module OutlineFacts.

(** The rows of a run of blocks, first version. *)
Lemma ol_rows_each f (cs : list MindMapNode) :
  flat_map rowsOf (map f cs) = flat_map (fun c => rowsOf (f c)) cs.
Proof.
  induction cs as [|c cs IH]; [reflexivity|].
  cbn [map flat_map]. now rewrite IH.
Qed.

Lemma ol_rows t : forall d,
  map rowShows (rowsOf (Outline.renderNode t d)) = map nodeShows (preorder t)
  /\ map marginLeft (rowsOf (Outline.renderNode t d))
     = map (fun k => Z.of_nat k * 16) (depthsFrom d t).
Proof.
  induction t as [i l su q pg cs w h IH] using MindMapNode_Forall_ind.
  intros d.
  cbn [Outline.renderNode rowsOf preorder depthsFrom children map].
  rewrite ol_rows_each.
  split; f_equal.
  - induction IH as [|c cs Hc _ IHcs]; [reflexivity|].
    cbn [flat_map]. rewrite !map_app, IHcs. f_equal.
    apply (Hc (S d)).
  - induction IH as [|c cs Hc _ IHcs]; [reflexivity|].
    cbn [flat_map]. rewrite !map_app, IHcs. f_equal.
    apply (Hc (S d)).
Qed.

Lemma ols_rows t : forall d,
  map rowShows (rowsOf (OutlineSynthetic.renderNode t d))
  = map nodeShows (preorder t)
  /\ map marginLeft (rowsOf (OutlineSynthetic.renderNode t d))
     = map (fun k => Z.of_nat k * 20) (depthsFrom d t).
Proof.
  induction t as [i l su q pg cs w h IH] using MindMapNode_Forall_ind.
  intros d.
  cbn [OutlineSynthetic.renderNode rowsOf preorder depthsFrom children map].
  rewrite ol_rows_each.
  split; f_equal.
  - induction IH as [|c cs Hc _ IHcs]; [reflexivity|].
    cbn [flat_map]. rewrite !map_app, IHcs. f_equal.
    apply (Hc (S d)).
  - induction IH as [|c cs Hc _ IHcs]; [reflexivity|].
    cbn [flat_map]. rewrite !map_app, IHcs. f_equal.
    apply (Hc (S d)).
Qed.

Lemma ols_rows_run cs d :
  map rowShows
    (flat_map rowsOf (map (fun c => OutlineSynthetic.renderNode c d) cs))
  = map nodeShows (flat_map preorder cs)
  /\ map marginLeft
       (flat_map rowsOf (map (fun c => OutlineSynthetic.renderNode c d) cs))
     = map (fun k => Z.of_nat k * 20) (flat_map (depthsFrom d) cs).
Proof.
  rewrite ol_rows_each.
  induction cs as [|c cs [IH1 IH2]]; [now split|].
  cbn [flat_map]. rewrite !map_app, IH1, IH2.
  destruct (ols_rows c d) as [-> ->]. now split.
Qed.

End OutlineFacts.

(** X21.  The outline has one row per node of the tree, in pre-order;
    each row shows its node's label and page, reports its node's page
    and quote when clicked, and is indented by its node's depth, sixteen
    pixels a level in the first version, twenty in the second (for a
    root that is not the synthetic one). *)
Theorem outline_rows_follow_preorder :
  forall root : MindMapNode,
    (let rows := rowsOf (Outline.OutlineView root) in
     map rowShows rows = map nodeShows (preorder root)
     /\ map marginLeft rows
        = map (fun k => Z.of_nat k * 16) (depthsFrom 0 root))
    /\ (id root <> "root-synthetic" ->
        let rows := bodyRows (OutlineSynthetic.OutlineView root) in
        map rowShows rows = map nodeShows (preorder root)
        /\ map marginLeft rows
           = map (fun k => Z.of_nat k * 20) (depthsFrom 0 root)).
Proof.
  intros root. split.
  - apply OutlineFacts.ol_rows.
  - intros Hid. unfold OutlineSynthetic.OutlineView.
    destruct (String.eqb_spec (id root) "root-synthetic") as [Heq|_];
      [contradiction|].
    cbn [length Nat.ltb Nat.leb map bodyRows flat_map].
    rewrite app_nil_r. apply OutlineFacts.ols_rows.
Qed.

Lemma outline_rows_follow_preorder_witness :
  let child := mkNode "2" "Method" "" None 3 [] None None in
  let root := mkNode "1" "Paper" "About" (Some "q") 1 [child] None None in
  map marginLeft (bodyRows (OutlineSynthetic.OutlineView root)) = [0; 20].
Proof.
  intros child root.
  assert (Hid : id root <> "root-synthetic") by discriminate.
  exact (proj2 (proj2 (outline_rows_follow_preorder root) Hid)).
Defined.

(** X22.  Under a synthetic root the second version leaves the root's
    own row out: the rows are those of the other nodes, in pre-order,
    each indented one level less than its depth; the root's children are
    the top-level blocks, and when it has none the placeholder is shown
    instead. *)
Theorem outline_skips_synthetic_root :
  forall root : MindMapNode,
    id root = "root-synthetic" ->
    (children root = [] ->
     OutlineSynthetic.OutlineView root
     = Placeholder "No structure extracted.")
    /\ (children root <> [] ->
        exists blocks,
          OutlineSynthetic.OutlineView root = Blocks blocks
          /\ length blocks = length (children root))
    /\ (let rows := bodyRows (OutlineSynthetic.OutlineView root) in
        map rowShows rows = map nodeShows (tl (preorder root))
        /\ map marginLeft rows
           = map (fun k => (Z.of_nat k - 1) * 20) (tl (depthsFrom 0 root))).
Proof.
  intros root Hid. unfold OutlineSynthetic.OutlineView.
  rewrite Hid. cbn [String.eqb Ascii.eqb Bool.eqb].
  change (String.eqb "root-synthetic" "root-synthetic") with true.
  cbv iota.
  destruct root as [i l su q pg cs w h]. cbn [children preorder depthsFrom tl].
  destruct cs as [|c cs].
  - repeat split; try reflexivity. intros Hne. now contradiction Hne.
  - split; [discriminate|]. split.
    + intros _. eexists. split; [reflexivity|]. now rewrite length_map.
    + change (0 <? length (c :: cs))%nat with true. cbv iota.
      cbn [bodyRows].
      destruct (OutlineFacts.ols_rows_run (c :: cs) 0) as [-> ->].
      split; [reflexivity|].
      rewrite depthsFrom_children, map_map. apply map_ext.
      intros k. f_equal. lia.
Qed.

Lemma outline_skips_synthetic_root_witness :
  let child := mkNode "2" "Method" "" None 3 [] None None in
  let root := mkNode "root-synthetic" "Overview" "" None 1 [child] None None in
  id root = "root-synthetic"
  /\ map rowShows (bodyRows (OutlineSynthetic.OutlineView root))
     = [nodeShows child]
  /\ map marginLeft (bodyRows (OutlineSynthetic.OutlineView root)) = [0].
Proof.
  intros child root.
  assert (Hid : id root = "root-synthetic") by reflexivity.
  split; [exact Hid|].
  exact (proj2 (proj2 (outline_skips_synthetic_root root Hid))).
Defined.
